(** * secureoperator: the DNS-to-DoH proxy's entry point

    A shallow embedding of [main.go]: flag registration and parsing, the
    sequential start-up of [main], and the goroutines it spawns ([serve]),
    as a labelled transition system over an explicit scheduler.  The query
    pipeline (handler, cache, provider) lives outside [main.go]; it is
    modelled from the design document in the second half of the
    definitions. *)

From Stdlib Require Import ZArith NArith Ascii.
From stdpp Require Import base option strings list gmap.

#[local] Set Warnings "-clear-no-such-hyp".

Local Open Scope string_scope.
Local Open Scope list_scope.
Local Open Scope stdpp_scope.

(** ** Go-style results *)

(** A Go pair [(value, err)] of which only one side is meaningful. *)
Inductive result (A : Type) : Type :=
| Ok (a : A)
| Err (e : string).
Arguments Ok {A} a.
Arguments Err {A} e.

(** [err != nil], with the text of [err.Error()]. *)
Definition res_err {A} (r : result A) : option string :=
  match r with Ok _ => None | Err e => Some e end.

Definition res_bind {A B} (r : result A) (k : A -> result B) : result B :=
  match r with Ok a => k a | Err e => Err e end.

(** ** The types [main] builds *)

(** [net.IP] is a byte slice. *)
Definition IP : Type := list N.

(** [KeyValue] is converted to [map[string][]string] and [http.Header]. *)
Abbreviation KeyValue := (gmap string (list string)).

(** The literal at lines 180-190. *)
Record DMProviderOptions : Type := {
  EndpointIPs : list IP;
  EDNSSubnet : string;
  QueryParameters : KeyValue;
  Headers : KeyValue;
  HTTP2 : bool;
  CACertFilePath : string;
  NoAAAA : bool;
  Alternative : bool;
  DnsResolver : string
}.

(** The literal at line 196. *)
Record HandlerOptions : Type := { Cache : bool }.

(** What [main] calls but does not define: logrus' level parser, the
    [Set] method of [KeyValue], and the constructors of the other files of
    the package.  They are taken as parameters. *)
Class Collaborators : Type := {
  Level : Type;
  ParseLevel : string -> result Level;
  Level_String : Level -> string;
  KeyValue_Set : string -> KeyValue -> result KeyValue;
  CSVtoIPs : string -> result (list IP);
  Provider : Type;
  NewDMProvider : string -> DMProviderOptions -> result Provider;
  Handler : Type;
  NewHandler : Provider -> HandlerOptions -> Handler
}.

(** ** Flags (lines 22-101, 121-141) *)

Definition gdnsEndpoint : string := "https://dns.google/dns-query".

(** A registered flag holds a value of one of three kinds. *)
Inductive Value : Type :=
| VString (s : string)
| VBool (b : bool)
| VKeyValue (kv : KeyValue).

(** The flag set after registration: every flag at its default. *)
Definition CommandLine : gmap string Value :=
  list_to_map
    [ ("listen", VString ":53");
      ("loglevel", VString "info");
      ("google", VBool false);
      ("endpoint", VString gdnsEndpoint);
      ("endpoint-ips", VString "");
      ("edns-subnet", VString "auto");
      ("cache", VBool true);
      ("tcp", VBool true);
      ("udp", VBool true);
      ("http2", VBool false);
      ("cacert", VString "");
      ("no-ipv6", VBool false);
      ("dns-resolver", VString "");
      ("headers", VKeyValue ∅);
      ("param", VKeyValue ∅) ].

(** [strconv.ParseBool], which a boolean flag applies to its argument. *)
Definition ParseBool (s : string) : result bool :=
  if bool_decide (s ∈ ["1"; "t"; "T"; "TRUE"; "true"; "True"]) then Ok true
  else if bool_decide (s ∈ ["0"; "f"; "F"; "FALSE"; "false"; "False"]) then Ok false
  else Err "invalid syntax".

Section with_collaborators.
Context `{Collaborators}.

Definition Value_Set (v : Value) (s : string) : result Value :=
  match v with
  | VString _ => Ok (VString s)
  | VBool _ => res_bind (ParseBool s) (fun b => Ok (VBool b))
  | VKeyValue kv => res_bind (KeyValue_Set s kv) (fun kv' => Ok (VKeyValue kv'))
  end.

(** One [-name=value] of the command line. *)
Definition flag_Set (name value : string) (fs : gmap string Value)
  : result (gmap string Value) :=
  match fs !! name with
  | None => Err ("flag provided but not defined: -" +:+ name)
  | Some v => res_bind (Value_Set v value) (fun v' => Ok (<[name := v']> fs))
  end.

(** [flag.Parse]: the settings of the command line, left to right. *)
Fixpoint flag_Parse (args : list (string * string)) (fs : gmap string Value)
  : result (gmap string Value) :=
  match args with
  | [] => Ok fs
  | (name, value) :: rest => res_bind (flag_Set name value fs) (flag_Parse rest)
  end.

End with_collaborators.

(** Dereferencing a flag pointer. *)
Definition flag_string (fs : gmap string Value) (name : string) : string :=
  match fs !! name with Some (VString s) => s | _ => "" end.
Definition flag_bool (fs : gmap string Value) (name : string) : bool :=
  match fs !! name with Some (VBool b) => b | _ => false end.
Definition flag_keyvalue (fs : gmap string Value) (name : string) : KeyValue :=
  match fs !! name with Some (VKeyValue kv) => kv | _ => ∅ end.

Definition listenAddressFlag fs := flag_string fs "listen".
Definition logLevelFlag fs := flag_string fs "loglevel".
Definition googleFlag fs := flag_bool fs "google".
Definition endpointFlag fs := flag_string fs "endpoint".
Definition endpointIPsFlag fs := flag_string fs "endpoint-ips".
Definition ednsSubnetFlag fs := flag_string fs "edns-subnet".
Definition cacheFlag fs := flag_bool fs "cache".
Definition enableTCPFlag fs := flag_bool fs "tcp".
Definition enableUDPFlag fs := flag_bool fs "udp".
Definition headersFlag fs := flag_keyvalue fs "headers".
Definition queryParameters fs := flag_keyvalue fs "param".
Definition http2Flag fs := flag_bool fs "http2".
Definition cacertFlag fs := flag_string fs "cacert".
Definition noAAAAFlag fs := flag_bool fs "no-ipv6".
Definition dnsResolverFlag fs := flag_string fs "dns-resolver".

(** ** What the process does: events, exit status *)

(** The logger methods [main.go] calls. *)
Inductive LogLevel : Type := FatalLevel | ErrorLevel | InfoLevel.

(** Calls that leave the process.  A log event records the call of the
    logger method and the line of [main.go] that makes it (the logger is set
    to report its caller, line 154), whatever the configured verbosity
    prints of it. *)
Inductive event : Type :=
| EvStderr (msg : string)
| EvPrintln (operands : list string)
| EvLog (line : nat) (l : LogLevel) (msg : string)
| EvHandleFunc (pattern : string)
| EvListenAndServe (net addr : string)
| EvShutdown (net : string).

Inductive signal : Type := SIGINT | SIGTERM.

Inductive status : Type :=
| Running
| Exited (code : Z)
| Killed (sg : signal).

(** ** The sequential part of [main] (lines 119-208) *)

Inductive outcome (A : Type) : Type :=
| Continue (a : A)
| Exit (code : Z).
Arguments Continue {A} a.
Arguments Exit {A} code.

(** Start-up code: the events so far, and a value or [os.Exit]. *)
Definition Startup (A : Type) : Type := list event * outcome A.

Definition startup_ret {A} (a : A) : Startup A := ([], Continue a).

Definition startup_bind {A B} (m : Startup A) (k : A -> Startup B) : Startup B :=
  match m with
  | (tr, Continue a) => let '(tr', o) := k a in (tr ++ tr', o)
  | (tr, Exit code) => (tr, Exit code)
  end.

Notation "'do' x <- m ; k" := (startup_bind m (fun x => k))
  (at level 10, x name, m at level 100, k at level 200).

Definition emit (e : event) : Startup unit := ([e], Continue tt).

(** [log.Fatalf] and [log.Fatal]: the entry is logged, then [os.Exit(1)]. *)
Definition Fatalf {A} (line : nat) (msg : string) : Startup A :=
  ([EvLog line FatalLevel msg], Exit 1).

(** [if err != nil { ... }] *)
Definition if_err {A} (r : result A) (k : string -> Startup unit) : Startup unit :=
  match res_err r with
  | Some e => k e
  | None => startup_ret tt
  end.

(** The value half of a Go pair; the zero value when [err != nil]. *)
Definition res_val {A} (zero : A) (r : result A) : A :=
  match r with Ok a => a | Err _ => zero end.

(** What the sequential part hands to the rest of [main]. *)
Record Booted `{Collaborators} : Type := {
  b_flags : gmap string Value;
  b_ep : string;
  b_opts : DMProviderOptions;
  b_provider : Provider;
  b_options : HandlerOptions;
  b_handler : Handler;
  b_protocols : list string
}.

Section startup.
Context `{Collaborators}.

(** Lines 121-141.  The flag package's error handling is [ExitOnError]. *)
Definition parse_flags (args : list (string * string)) : Startup (gmap string Value) :=
  match flag_Parse args CommandLine with
  | Ok fs => startup_ret fs
  | Err e => ([EvStderr e], Exit 2)
  end.

(** Lines 201-208. *)
Definition enabled_protocols (fs : gmap string Value) : list string :=
  (if enableTCPFlag fs then ["tcp"] else []) ++
  (if enableUDPFlag fs then ["udp"] else []).

(** Lines 179-190. *)
Definition provider_options (fs : gmap string Value) (endpointIps : list IP)
  : DMProviderOptions :=
  {| EndpointIPs := endpointIps;
     EDNSSubnet := ednsSubnetFlag fs;
     QueryParameters := queryParameters fs;
     Headers := headersFlag fs;
     HTTP2 := http2Flag fs;
     CACertFilePath := cacertFlag fs;
     NoAAAA := noAAAAFlag fs;
     Alternative := googleFlag fs;
     DnsResolver := dnsResolverFlag fs |}.

Definition main_startup (args : list (string * string)) : Startup Booted :=
  do fs <- parse_flags args;
  (* 147-150 *)
  do level <- match ParseLevel (logLevelFlag fs) with
           | Ok l => startup_ret l
           | Err e => Fatalf 149 ("invalid log level: " +:+ e)
           end;
  (* 152-153 *)
  do _ <- emit (EvPrintln ["log level: "; Level_String level]);
  (* 171-177 *)
  let r := CSVtoIPs (endpointIPsFlag fs) in
  let endpointIps := res_val [] r in
  do _ <- if_err r (fun e => Fatalf 173 ("error parsing endpoint-ips: " +:+ e));
  do _ <- if_err r (fun e => Fatalf 176 ("error parsing dns-servers: " +:+ e));
  (* 179-195 *)
  let ep := endpointFlag fs in
  let opts := provider_options fs endpointIps in
  do provider <- match NewDMProvider ep opts with
              | Ok p => startup_ret p
              | Err e => Fatalf 194 e
              end;
  (* 196-199 *)
  let options := {| Cache := cacheFlag fs |} in
  let handler := NewHandler provider options in
  do _ <- emit (EvHandleFunc ".");
  startup_ret
    {| b_flags := fs; b_ep := ep; b_opts := opts; b_provider := provider;
       b_options := options; b_handler := handler;
       b_protocols := enabled_protocols fs |}.

End startup.

(** ** The concurrent part of [main] (lines 210-223) and [serve] (103-117)

    The process is a pool of goroutines over one unbuffered channel
    ([servers]).  A schedule is a list of actions: which goroutine moves
    next, and what the world does (a signal arrives, a library call that was
    blocking returns). *)

(** Where a [serve] goroutine stands. *)
Inductive gstate : Type :=
| GRecv                          (* 104: blocked in [<-net] *)
| GStart (listenNet : string)    (* 105: about to log "starting" *)
| GListen (listenNet : string)   (* 107-109: about to call ListenAndServe *)
| GServing (listenNet : string)  (* 109: inside ListenAndServe *)
| GShutLog (listenNet : string)  (* 113: about to log "shutting down" *)
| GShutdown (listenNet : string) (* 114: inside server.Shutdown *)
| GDone (listenNet : string).    (* 117: returned *)

(** Where [main] stands. *)
Inductive mstate : Type :=
| MLoop (rest : list string)             (* 213: loop head, protocols left *)
| MSend (p : string) (rest : list string) (* 215: blocked in [servers <- p] *)
| MNotify                                 (* 219-220 *)
| MWaitSig                                (* 221: blocked in [<-sig] *)
| MLogExit                                (* 223 *)
| MClose                                  (* 212: the deferred close *)
| MReturn                                 (* main returns *)
| MDone.

Record state `{Collaborators} : Type := {
  st_status : status;
  st_flags : gmap string Value;
  st_handler : option Handler;
  st_main : mstate;
  st_pool : list gstate;
  st_closed : bool;
  st_trace : list event
}.

(** What makes a [serve] goroutine move: the scheduler, or the return of
    the library call it is blocked in. *)
Inductive gaction : Type :=
| Move
| ListenReturns (err : option string)
| ShutdownReturns (err : option string).

Inductive action : Type :=
| ActMain                            (* main moves *)
| ActSend (i : nat)                  (* goroutine i receives what main sends *)
| ActServe (i : nat) (ga : gaction)  (* goroutine i moves *)
| ActSignal (sg : signal).           (* the OS delivers a signal *)

Definition newline : string := String (Ascii.ascii_of_nat 10) EmptyString.

(** [serve], lines 103-117, from one point of the function to the next: the
    new point, the events, and the exit status if the process exits.  The
    receive of line 104 is here only for a closed channel, which yields the
    empty string; the hand-over by [main] is [send_step] below.
    [log.Fatalf] exits the process (line 110). *)
Definition serve (listenAddress : string) (closed : bool) (ga : gaction) (g : gstate)
  : option (gstate * list event * option Z) :=
  match g, ga with
  | GRecv, Move =>
      if closed then Some (GStart "", [], None) else None
  | GStart listenNet, Move =>
      Some (GListen listenNet,
            [EvLog 105 InfoLevel ("starting " +:+ listenNet +:+ " service on " +:+
                                  listenAddress)], None)
  | GListen listenNet, Move =>
      Some (GServing listenNet, [EvListenAndServe listenNet listenAddress], None)
  | GServing listenNet, ListenReturns (Some e) =>
      Some (GServing listenNet,
            [EvLog 110 FatalLevel ("Failed to setup the " +:+ listenNet +:+
                                   " server: " +:+ e +:+ newline)], Some 1%Z)
  | GServing listenNet, ListenReturns None =>
      Some (GShutLog listenNet, [], None)
  | GShutLog listenNet, Move =>
      Some (GShutdown listenNet,
            [EvLog 113 InfoLevel ("shutting down " +:+ listenNet +:+ " on interrupt" +:+
                                  newline)], None)
  | GShutdown listenNet, ShutdownReturns err =>
      Some (GDone listenNet,
            EvShutdown listenNet ::
            match err with
            | Some e => [EvLog 115 ErrorLevel ("got unexpected error " +:+ e)]
            | None => []
            end, None)
  | _, _ => None
  end.

Section process.
Context `{Collaborators}.

Definition set_status (x : status) (s : state) : state :=
  {| st_status := x; st_flags := st_flags s; st_handler := st_handler s;
     st_main := st_main s; st_pool := st_pool s; st_closed := st_closed s;
     st_trace := st_trace s |}.
Definition set_main (m : mstate) (s : state) : state :=
  {| st_status := st_status s; st_flags := st_flags s; st_handler := st_handler s;
     st_main := m; st_pool := st_pool s; st_closed := st_closed s;
     st_trace := st_trace s |}.
Definition set_pool (p : list gstate) (s : state) : state :=
  {| st_status := st_status s; st_flags := st_flags s; st_handler := st_handler s;
     st_main := st_main s; st_pool := p; st_closed := st_closed s;
     st_trace := st_trace s |}.
Definition set_closed (b : bool) (s : state) : state :=
  {| st_status := st_status s; st_flags := st_flags s; st_handler := st_handler s;
     st_main := st_main s; st_pool := st_pool s; st_closed := b;
     st_trace := st_trace s |}.
Definition record (evs : list event) (s : state) : state :=
  {| st_status := st_status s; st_flags := st_flags s; st_handler := st_handler s;
     st_main := st_main s; st_pool := st_pool s; st_closed := st_closed s;
     st_trace := st_trace s ++ evs |}.

Definition set_goroutine (i : nat) (g : gstate) (s : state) : state :=
  set_pool (<[i := g]> (st_pool s)) s.

(** [go serve(servers)] *)
Definition spawn (g : gstate) (s : state) : state :=
  set_pool (st_pool s ++ [g]) s.

(** [os.Exit], or nothing. *)
Definition exit_with (code : option Z) (s : state) : state :=
  match code with
  | Some c => set_status (Exited c) s
  | None => s
  end.

(** The state [main] is in when its sequential part is over. *)
Definition boot (args : list (string * string)) : state :=
  match main_startup args with
  | (tr, Continue b) =>
      {| st_status := Running; st_flags := b_flags b;
         st_handler := Some (b_handler b);
         st_main := MLoop (b_protocols b); st_pool := []; st_closed := false;
         st_trace := tr |}
  | (tr, Exit code) =>
      {| st_status := Exited code; st_flags := CommandLine; st_handler := None;
         st_main := MDone; st_pool := []; st_closed := false; st_trace := tr |}
  end.

(** One move of [main], lines 213-223. *)
Definition main_step (s : state) : state :=
  match st_main s with
  | MLoop (p :: rest) => set_main (MSend p rest) (spawn GRecv s)
  | MLoop [] => set_main MNotify s
  | MSend _ _ => s
  | MNotify => set_main MWaitSig s
  | MWaitSig => s
  | MLogExit =>
      set_main MClose (record [EvLog 223 InfoLevel "servers exited, stopping"] s)
  | MClose => set_main MReturn (set_closed true s)
  | MReturn => set_main MDone (set_status (Exited 0) s)
  | MDone => s
  end.

(** The rendezvous on [servers]: [main] is sending and goroutine [i] is
    receiving. *)
Definition send_step (i : nat) (s : state) : state :=
  match st_main s, st_pool s !! i with
  | MSend p rest, Some GRecv => set_main (MLoop rest) (set_goroutine i (GStart p) s)
  | _, _ => s
  end.

(** Goroutine [i] moves, if it can. *)
Definition goroutine_step (i : nat) (ga : gaction) (s : state) : state :=
  match st_pool s !! i with
  | Some g =>
      match serve (listenAddressFlag (st_flags s)) (st_closed s) ga g with
      | Some (g', evs, code) => exit_with code (set_goroutine i g' (record evs s))
      | None => s
      end
  | None => s
  end.

(** SIGINT or SIGTERM arrives.  Before [signal.Notify] the default
    disposition ends the process.  After it the signal goes to [sig], which
    has no buffer: it is received if [main] is waiting at line 221 and is
    dropped otherwise. *)
Definition signal_step (sg : signal) (s : state) : state :=
  match st_main s with
  | MLoop _ | MSend _ _ | MNotify => set_status (Killed sg) s
  | MWaitSig => set_main MLogExit s
  | MLogExit | MClose | MReturn | MDone => s
  end.

(** A step of the process.  Nothing moves once the process is gone. *)
Definition step (a : action) (s : state) : state :=
  match st_status s with
  | Running =>
      match a with
      | ActMain => main_step s
      | ActSend i => send_step i s
      | ActServe i ga => goroutine_step i ga s
      | ActSignal sg => signal_step sg s
      end
  | _ => s
  end.

Definition exec (sched : list action) (s : state) : state :=
  fold_left (fun s a => step a s) sched s.

(** The program: [main] on a command line, under a schedule. *)
Definition program (args : list (string * string)) (sched : list action) : state :=
  exec sched (boot args).

(** *** Spawning without the channel

    The second reading of lines 210-216, as the design notes word it: one
    task per enabled transport, each given its transport directly.  [serve]
    then starts at line 105 and there is no channel to close. *)
Definition main_step_direct (s : state) : state :=
  match st_main s with
  | MLoop (p :: rest) => set_main (MLoop rest) (spawn (GStart p) s)
  | MLoop [] => set_main MNotify s
  | MSend _ _ => s
  | MNotify => set_main MWaitSig s
  | MWaitSig => s
  | MLogExit =>
      set_main MReturn (record [EvLog 223 InfoLevel "servers exited, stopping"] s)
  | MClose => s
  | MReturn => set_main MDone (set_status (Exited 0) s)
  | MDone => s
  end.

Definition step_direct (a : action) (s : state) : state :=
  match st_status s with
  | Running =>
      match a with
      | ActMain => main_step_direct s
      | ActSend _ => s
      | ActServe i ga => goroutine_step i ga s
      | ActSignal sg => signal_step sg s
      end
  | _ => s
  end.

Definition exec_direct (sched : list action) (s : state) : state :=
  fold_left (fun s a => step_direct a s) sched s.

Definition program_direct (args : list (string * string)) (sched : list action) : state :=
  exec_direct sched (boot args).

(** What an observer of the process sees. *)
Definition observation (s : state) : status * list event :=
  (st_status s, st_trace s).

(** *** The hand-over, seen from the pool *)

(** The transport a goroutine serves, once it has one. *)
Definition listenNet_of (g : gstate) : option string :=
  match g with
  | GRecv => None
  | GStart p | GListen p | GServing p | GShutLog p | GShutdown p | GDone p => Some p
  end.

(** [main] has left the loop of lines 213-216. *)
Definition loop_done (m : mstate) : bool :=
  match m with
  | MLoop _ | MSend _ _ => false
  | _ => true
  end.

(** The number of goroutines that serve transport [net]. *)
Definition listeners_for (net : string) (s : state) : nat :=
  length (filter (λ g, listenNet_of g = Some net) (st_pool s)).

#[global] Instance gstate_eq_dec : EqDecision gstate.
Proof. solve_decision. Defined.

(** The goroutines that have their transport. *)
Definition serving_pool (s : state) : list gstate :=
  filter (λ g, g ≠ GRecv) (st_pool s).

(** The pool and [main] agree on how far the hand-over of [protocols] is:
    the goroutines so far hold the protocols handed out, in order, and while
    [main] is sending there is one more, waiting to receive. *)
Definition handoff_rel (protocols : list string)
    (m : mstate) (pool : list gstate) (closed : bool) : Prop :=
  match m with
  | MLoop rest =>
      ∃ given, protocols = given ++ rest ∧
        listenNet_of <$> pool = Some <$> given ∧ closed = false
  | MSend p rest =>
      ∃ given, protocols = given ++ p :: rest ∧
        listenNet_of <$> pool = (Some <$> given) ++ [None] ∧ closed = false
  | _ => listenNet_of <$> pool = Some <$> protocols
  end.

Definition handoff_inv (protocols : list string) (s : state) : Prop :=
  handoff_rel protocols (st_main s) (st_pool s) (st_closed s).

(** The channel version [c] and the direct version [d] at matching points:
    they agree on everything an observer sees and on the goroutines that have
    a transport; the goroutine [c] has spawned and not yet handed a transport
    to is the one [d] has not spawned yet. *)
Definition handoff_sim (c d : state) : Prop :=
  st_status c = st_status d ∧ st_flags c = st_flags d ∧
  st_handler c = st_handler d ∧ st_trace c = st_trace d ∧
  (GRecv ∉ st_pool d) ∧
  match st_main c, st_main d with
  | MLoop rest, MLoop rest' =>
      rest' = rest ∧ st_pool c = st_pool d ∧ st_closed c = false
  | MSend p rest, MLoop rest' =>
      rest' = p :: rest ∧ st_pool c = st_pool d ++ [GRecv] ∧ st_closed c = false
  | MNotify, MNotify | MWaitSig, MWaitSig | MLogExit, MLogExit
  | MClose, MReturn | MReturn, MReturn | MDone, MDone =>
      st_pool c = st_pool d
  | _, _ => False
  end.

End process.

(** ** The query pipeline

    [handler.Handle], the cache and the provider are defined in files of the
    package other than [main.go].  The definitions of this part follow the
    design document, section by section. *)

(** What the pipeline reads of a message of the DNS library. *)
Module dns.

Record Question : Type := { Name : string; Qtype : N; Qclass : N }.

Record RR : Type := {
  rr_name : string; rr_type : N; rr_class : N; rr_ttl : N; rr_data : string
}.

Record Msg : Type := {
  Id : N;
  Response : bool;
  Rcode : N;
  Questions : list Question;
  Answer : list RR
}.

Definition TypeA : N := 1.
Definition TypeAAAA : N := 28.
Definition ClassINET : N := 1.
Definition RcodeSuccess : N := 0.
Definition RcodeServerFailure : N := 2.

End dns.

(** A network prefix, as the EDNS client-subnet option carries it. *)
Record Subnet : Type := { net_ip : IP; net_bits : N }.

(** Modelled from the spec: the error taxonomy of section 7 (the per-request
    errors), which the missing files declare.  [InFlightTimeout] is the error
    that releases a waiter whose in-flight fetch never completes (invariants
    of section 3). *)
Inductive PipelineError : Type :=
| EndpointResolutionError
| UpstreamHTTPError (status : N)
| UpstreamDecodeError
| UnsupportedQueryError
| InFlightTimeout.

(** Modelled from the spec: the query fingerprint of section 3, missing from
    the sources: case-folded name, type, class, and the subnet sent. *)
Record Fingerprint : Type := {
  fp_name : string; fp_type : N; fp_class : N; fp_subnet : option (IP * N)
}.

#[global] Instance Fingerprint_eq_dec : EqDecision Fingerprint.
Proof. solve_decision. Defined.

Definition Fingerprint_to_tuple (f : Fingerprint) : string * N * N * option (IP * N) :=
  (fp_name f, fp_type f, fp_class f, fp_subnet f).
Definition Fingerprint_of_tuple (t : string * N * N * option (IP * N)) : Fingerprint :=
  let '(n, ty, c, sn) := t in
  {| fp_name := n; fp_type := ty; fp_class := c; fp_subnet := sn |}.

#[global] Program Instance Fingerprint_countable : Countable Fingerprint :=
  inj_countable' Fingerprint_to_tuple Fingerprint_of_tuple _.
Next Obligation. by intros []. Qed.

(** Modelled from the spec: the cache entry of section 3. *)
Record CacheEntry : Type := {
  ce_answer : dns.Msg;
  ce_inserted : N;
  ce_ttl : N
}.

(** Modelled from the spec: the response cache of section 4.4, with its
    enable toggle, its entries and its in-flight markers. *)
Record CacheState : Type := {
  cs_enabled : bool;
  cs_entries : gmap Fingerprint CacheEntry;
  cs_inflight : gset Fingerprint
}.

(** Modelled from the spec: the three modes of the subnet resolver,
    section 4.2. *)
Inductive SubnetMode : Type :=
| SubnetNo
| SubnetAuto
| SubnetFixed (n : Subnet).

(** Modelled from the spec: the provider, an endpoint configuration
    (section 3) with its subnet mode resolved at construction. *)
Record DMProvider : Type := {
  p_endpoint : string;
  p_opts : DMProviderOptions;
  p_subnet : SubnetMode
}.

(** Modelled from the spec: the protocol handler of section 4.5 binds a
    provider to the cache toggle. *)
Record DMHandler : Type := {
  h_provider : DMProvider;
  h_options : HandlerOptions
}.

(** Modelled from the spec: the HTTPS request of section 4.3, steps 2 and 3.
    The wire codec is the DNS library's; the request carries the query. *)
Record Request : Type := {
  rq_url : string;
  rq_ip : IP;
  rq_alternative : bool;
  rq_http2 : bool;
  rq_cacert : string;
  rq_headers : KeyValue;
  rq_params : KeyValue;
  rq_subnet : option Subnet;
  rq_query : dns.Msg
}.

(** The HTTPS answer: a status, and the body if it decodes. *)
Record HttpResponse : Type := {
  rs_status : N;
  rs_body : option dns.Msg
}.

(** The standard library, logrus, the network and the stubbed transport. *)
Class World : Type := {
  logrus_Level : Type;
  logrus_ParseLevel : string -> result logrus_Level;
  logrus_String : logrus_Level -> string;
  net_ParseIP : string -> option IP;
  net_ParseCIDR : string -> option Subnet;
  external_subnet : Subnet;
  lookup_endpoint : string -> string -> option IP;
  roundtrip : Request -> HttpResponse
}.

(** The outcome of the pipeline for one query. *)
Inductive reply (A : Type) : Type :=
| Answered (a : A)
| Failed (e : PipelineError).
Arguments Answered {A} a.
Arguments Failed {A} e.

(** The mutable state of the pipeline: the cache, and the call counter of
    the stubbed transport (section 8). *)
Record PipelineState : Type := {
  ps_cache : CacheState;
  ps_calls : nat
}.

(** *** Strings *)

Definition lower_ascii (c : ascii) : ascii :=
  let n := Ascii.nat_of_ascii c in
  if (65 <=? n)%nat && (n <=? 90)%nat then Ascii.ascii_of_nat (n + 32) else c.

(** Case folding of a domain name. *)
Fixpoint to_lower (s : string) : string :=
  match s with
  | EmptyString => EmptyString
  | String c r => String (lower_ascii c) (to_lower r)
  end.

(** The fields of [s] between the separators. *)
Fixpoint split_on (sep : ascii) (s : string) : list string :=
  match s with
  | EmptyString => [EmptyString]
  | String c r =>
      if Ascii.eqb c sep then EmptyString :: split_on sep r
      else match split_on sep r with
           | w :: ws => String c w :: ws
           | [] => [String c EmptyString]
           end
  end.

(** [s] before and after its first separator. *)
Fixpoint cut (sep : ascii) (s : string) : option (string * string) :=
  match s with
  | EmptyString => None
  | String c r =>
      if Ascii.eqb c sep then Some (EmptyString, r)
      else match cut sep r with
           | Some (k, v) => Some (String c k, v)
           | None => None
           end
  end.

(** Modelled from the spec: [KeyValue.Set], missing from the sources, after
    the usage text of the two flags (lines 124-133): an argument is
    [Key=Value], and a key given several times keeps every value. *)
Definition design_KeyValue_Set (s : string) (kv : KeyValue) : result KeyValue :=
  match cut "="%char s with
  | Some (k, v) => Ok (<[k := default [] (kv !! k) ++ [v]]> kv)
  | None => Err ("invalid argument: " +:+ s)
  end.

Section pipeline.
Context `{World}.

(** *** Construction *)

Fixpoint parse_ips (fields : list string) : result (list IP) :=
  match fields with
  | [] => Ok []
  | x :: rest =>
      match net_ParseIP x with
      | Some ip => res_bind (parse_ips rest) (fun ips => Ok (ip :: ips))
      | None => Err ("invalid IP address: " +:+ x)
      end
  end.

(** Modelled from the spec: [CSVtoIPs], missing from the sources: the fixed
    endpoint IP list of section 6, comma-separated with no whitespace; the
    empty string is no list. *)
Definition design_CSVtoIPs (csv : string) : result (list IP) :=
  if decide (csv = "") then Ok [] else parse_ips (split_on ","%char csv).

(** Modelled from the spec: [NewDMProvider], missing from the sources: the
    subnet mode is parsed when the provider is built, and a malformed
    literal is a configuration error (section 4.2). *)
Definition design_NewDMProvider (ep : string) (opts : DMProviderOptions)
  : result DMProvider :=
  let mk m := Ok {| p_endpoint := ep; p_opts := opts; p_subnet := m |} in
  if decide (EDNSSubnet opts = "no") then mk SubnetNo
  else if decide (EDNSSubnet opts = "auto") then mk SubnetAuto
  else match net_ParseCIDR (EDNSSubnet opts) with
       | Some n => mk (SubnetFixed n)
       | None => Err ("InvalidSubnetConfigError: " +:+ EDNSSubnet opts)
       end.

(** Modelled from the spec: [NewHandler], missing from the sources. *)
Definition design_NewHandler (p : DMProvider) (o : HandlerOptions) : DMHandler :=
  {| h_provider := p; h_options := o |}.

(** The pipeline state a handler starts with: an empty cache, enabled as
    configured, and no upstream call so far. *)
Definition new_pipeline (h : DMHandler) : PipelineState :=
  {| ps_cache := {| cs_enabled := Cache (h_options h); cs_entries := ∅;
                    cs_inflight := ∅ |};
     ps_calls := 0 |}.

(** *** Subnet resolver (section 4.2) and endpoint resolver (4.1) *)

(** Modelled from the spec: the subnet to attach, or none. *)
Definition resolve_subnet (p : DMProvider) : option Subnet :=
  match p_subnet p with
  | SubnetNo => None
  | SubnetAuto => Some external_subnet
  | SubnetFixed n => Some n
  end.

(** Modelled from the spec: one IP for the current request: a random pick
    in the fixed list if there is one, the resolution of the endpoint's host
    otherwise. *)
Definition resolve_endpoint (p : DMProvider) (rnd : nat) : option IP :=
  match EndpointIPs (p_opts p) with
  | [] => lookup_endpoint (DnsResolver (p_opts p)) (p_endpoint p)
  | ips => ips !! (rnd mod length ips)%nat
  end.

(** *** Translator (section 4.3) *)

Definition build_request (p : DMProvider) (ip : IP) (q : dns.Msg) : Request :=
  {| rq_url := p_endpoint p;
     rq_ip := ip;
     rq_alternative := Alternative (p_opts p);
     rq_http2 := HTTP2 (p_opts p);
     rq_cacert := CACertFilePath (p_opts p);
     rq_headers := Headers (p_opts p);
     rq_params := QueryParameters (p_opts p);
     rq_subnet := resolve_subnet p;
     rq_query := q |}.

Definition http_success (st : N) : bool := (200 <=? st)%N && (st <? 300)%N.

(** The synthesized answer of step 6: success, no record. *)
Definition empty_answer (q : dns.Msg) : dns.Msg :=
  {| dns.Id := dns.Id q; dns.Response := true; dns.Rcode := dns.RcodeSuccess;
     dns.Questions := dns.Questions q; dns.Answer := [] |}.

(** The decoded answer in the transaction context of the query. *)
Definition in_context (q a : dns.Msg) : dns.Msg :=
  {| dns.Id := dns.Id q; dns.Response := dns.Response a; dns.Rcode := dns.Rcode a;
     dns.Questions := dns.Questions q; dns.Answer := dns.Answer a |}.

(** Modelled from the spec: [Translate], steps 1 to 6 of section 4.3, over
    the call counter of the transport. *)
Definition Translate (p : DMProvider) (rnd : nat) (q : dns.Msg) (calls : nat)
  : reply dns.Msg * nat :=
  match dns.Questions q with
  | [qu] =>
      if NoAAAA (p_opts p) && (dns.Qtype qu =? dns.TypeAAAA)%N
      then (Answered (empty_answer q), calls)
      else match resolve_endpoint p rnd with
           | None => (Failed EndpointResolutionError, calls)
           | Some ip =>
               let resp := roundtrip (build_request p ip q) in
               if http_success (rs_status resp) then
                 match rs_body resp with
                 | Some a => (Answered (in_context q a), S calls)
                 | None => (Failed UpstreamDecodeError, S calls)
                 end
               else (Failed (UpstreamHTTPError (rs_status resp)), S calls)
           end
  | _ => (Failed UnsupportedQueryError, calls)
  end.

(** *** Response cache (section 4.4) *)

(** Modelled from the spec: the effective TTL of section 3: the minimum
    over the answer records; 0 without records or for an error message. *)
Definition effective_ttl (m : dns.Msg) : N :=
  if (dns.Rcode m =? dns.RcodeSuccess)%N then
    match dns.Answer m with
    | [] => 0%N
    | rr :: rest => fold_left (fun acc r => N.min acc (dns.rr_ttl r)) rest (dns.rr_ttl rr)
    end
  else 0%N.

Definition fingerprint (p : DMProvider) (qu : dns.Question) : Fingerprint :=
  {| fp_name := to_lower (dns.Name qu);
     fp_type := dns.Qtype qu;
     fp_class := dns.Qclass qu;
     fp_subnet := (fun n => (net_ip n, net_bits n)) <$> resolve_subnet p |}.

(** An entry is served while the clock is before insertion + TTL. *)
Definition entry_valid (now : N) (e : CacheEntry) : bool :=
  (now <? ce_inserted e + ce_ttl e)%N.

(** Modelled from the spec: [Lookup]: a non-expired entry if present. *)
Definition Lookup (fp : Fingerprint) (now : N) (c : CacheState) : option dns.Msg :=
  if cs_enabled c then
    match cs_entries c !! fp with
    | Some e => if entry_valid now e then Some (ce_answer e) else None
    | None => None
    end
  else None.

(** Storing: entries with TTL 0, and error responses, are not stored. *)
Definition store (fp : Fingerprint) (a : dns.Msg) (now : N) (c : CacheState) : CacheState :=
  if (0 <? effective_ttl a)%N then
    {| cs_enabled := cs_enabled c;
       cs_entries := <[fp := {| ce_answer := a; ce_inserted := now;
                                ce_ttl := effective_ttl a |}]> (cs_entries c);
       cs_inflight := cs_inflight c |}
  else c.

Definition mark (fp : Fingerprint) (c : CacheState) : CacheState :=
  {| cs_enabled := cs_enabled c; cs_entries := cs_entries c;
     cs_inflight := {[fp]} ∪ cs_inflight c |}.
Definition unmark (fp : Fingerprint) (c : CacheState) : CacheState :=
  {| cs_enabled := cs_enabled c; cs_entries := cs_entries c;
     cs_inflight := cs_inflight c ∖ {[fp]} |}.

(** Modelled from the spec: [GetOrFetch].  One query at a time runs here:
    a marker found set belongs to a fetch that makes no progress, and the
    waiter is released with an error when its deadline passes. *)
Definition GetOrFetch (fp : Fingerprint) (fetchFn : nat -> reply dns.Msg * nat)
    (now : N) (st : PipelineState) : reply dns.Msg * PipelineState :=
  let c := ps_cache st in
  if cs_enabled c then
    match Lookup fp now c with
    | Some a => (Answered a, st)
    | None =>
        if decide (fp ∈ cs_inflight c) then (Failed InFlightTimeout, st)
        else
          let c1 := mark fp c in
          let '(r, calls) := fetchFn (ps_calls st) in
          let c2 := match r with
                    | Answered a => store fp a now c1
                    | Failed _ => c1
                    end in
          (r, {| ps_cache := unmark fp c2; ps_calls := calls |})
    end
  else
    let '(r, calls) := fetchFn (ps_calls st) in
    (r, {| ps_cache := c; ps_calls := calls |}).

(** *** Protocol handler (section 4.5) *)

Definition servfail (q : dns.Msg) : dns.Msg :=
  {| dns.Id := dns.Id q; dns.Response := true; dns.Rcode := dns.RcodeServerFailure;
     dns.Questions := dns.Questions q; dns.Answer := [] |}.

(** The pipeline of one query: fingerprint, cache, translator. *)
Definition pipeline (h : DMHandler) (now : N) (rnd : nat) (q : dns.Msg)
    (st : PipelineState) : reply dns.Msg * PipelineState :=
  match dns.Questions q with
  | [qu] =>
      GetOrFetch (fingerprint (h_provider h) qu) (Translate (h_provider h) rnd q) now st
  | _ => (Failed UnsupportedQueryError, st)
  end.

(** Modelled from the spec: [Handle]: the answer of the pipeline, or a
    SERVFAIL answer to the same query. *)
Definition Handle (h : DMHandler) (now : N) (rnd : nat) (q : dns.Msg)
    (st : PipelineState) : dns.Msg * PipelineState :=
  match pipeline h now rnd q st with
  | (Answered a, st') => (a, st')
  | (Failed _, st') => (servfail q, st')
  end.

(** A run of the handler: the queries it receives, each with the clock and
    the random draw of its arrival. *)
Definition serve_queries (h : DMHandler) (qs : list (N * nat * dns.Msg))
    (st : PipelineState) : PipelineState :=
  fold_left (fun st '(now, rnd, q) => (Handle h now rnd q st).2) qs st.

(** The package as the design document has it, behind what [main] calls. *)
#[global] Instance design : Collaborators := {|
  Level := logrus_Level;
  ParseLevel := logrus_ParseLevel;
  Level_String := logrus_String;
  KeyValue_Set := design_KeyValue_Set;
  CSVtoIPs := design_CSVtoIPs;
  Provider := DMProvider;
  NewDMProvider := design_NewDMProvider;
  Handler := DMHandler;
  NewHandler := design_NewHandler
|}.

End pipeline.

(** ** The pipeline behind [main]

    The package of the design document, wired as [main] wires it. *)

Section wiring.
Context `{World}.

(** The handler [main] registers for every name (lines 196-199). *)
Definition registered_handler (args : list (string * string)) : option DMHandler :=
  @st_handler design (@boot design args).

(** The flags [main] runs with. *)
Definition parsed_flags (args : list (string * string)) : gmap string Value :=
  @st_flags design (@boot design args).

(** An entry as [store] makes them. *)
Definition entry_ok (e : CacheEntry) : Prop :=
  ce_ttl e = effective_ttl (ce_answer e) ∧ (0 < ce_ttl e)%N.

(** What holds of the pipeline between two queries: the toggle is the
    configured one, no fetch is in flight, every entry is as [store] makes
    them, and under the AAAA-disable policy no entry is for an AAAA
    question. *)
Definition pipeline_inv (h : DMHandler) (st : PipelineState) : Prop :=
  cs_enabled (ps_cache st) = Cache (h_options h) ∧
  cs_inflight (ps_cache st) = ∅ ∧
  ∀ fp e, cs_entries (ps_cache st) !! fp = Some e →
    entry_ok e ∧
    (NoAAAA (p_opts (h_provider h)) = true → fp_type fp ≠ dns.TypeAAAA).

(** The reply and the counter of a fetch, and the cache once the reply went
    through [store]. *)
Definition fetched (fp : Fingerprint) (now : N) (c : CacheState)
    (res : reply dns.Msg * nat) : reply dns.Msg * PipelineState :=
  (res.1, {| ps_cache := match res.1 with
                         | Answered a => store fp a now c
                         | Failed _ => c
                         end;
             ps_calls := res.2 |}).

End wiring.

(** ** A stubbed world

    The world the examples below run in: the level names of logrus in lower
    case, three known addresses, one known subnet literal, and an upstream
    that knows [example.com]. *)

Inductive stub_level : Type := LPanic | LFatal | LError | LWarn | LInfo | LDebug | LTrace.

Definition stub_levels : list (string * stub_level) :=
  [ ("panic", LPanic); ("fatal", LFatal); ("error", LError); ("warn", LWarn);
    ("warning", LWarn); ("info", LInfo); ("debug", LDebug); ("trace", LTrace) ].

Definition stub_ParseLevel (lvl : string) : result stub_level :=
  match list_find (fun e => e.1 = to_lower lvl) stub_levels with
  | Some (_, (_, l)) => Ok l
  | None => Err ("not a valid logrus Level: " +:+ lvl)
  end.

Definition stub_String (l : stub_level) : string :=
  match l with
  | LPanic => "panic" | LFatal => "fatal" | LError => "error" | LWarn => "warning"
  | LInfo => "info" | LDebug => "debug" | LTrace => "trace"
  end.

Definition stub_addresses : list (string * IP) :=
  [ ("74.125.28.139", [74; 125; 28; 139]%N);
    ("74.125.28.102", [74; 125; 28; 102]%N);
    ("8.8.8.8", [8; 8; 8; 8]%N) ].

Definition stub_ParseIP (a : string) : option IP :=
  (fun e => e.2.2) <$> list_find (fun e => e.1 = a) stub_addresses.

Definition stub_ParseCIDR (a : string) : option Subnet :=
  if decide (a = "66.66.66.66/24")
  then Some {| net_ip := [66; 66; 66; 0]%N; net_bits := 24 |}
  else None.

Definition stub_lookup (resolver url : string) : option IP :=
  if decide (url = gdnsEndpoint) then Some [8; 8; 8; 8]%N else None.

Definition example_com : string := "example.com.".

Definition example_rr : dns.RR :=
  {| dns.rr_name := example_com; dns.rr_type := dns.TypeA;
     dns.rr_class := dns.ClassINET; dns.rr_ttl := 300; dns.rr_data := "93.184.216.34" |}.

(** The upstream: one A record with TTL 300 for [example.com], a name
    error (RCODE 3) for any other question, 400 for anything else. *)
Definition stub_roundtrip (r : Request) : HttpResponse :=
  match dns.Questions (rq_query r) with
  | [qu] =>
      if decide (to_lower (dns.Name qu) = example_com ∧ dns.Qtype qu = dns.TypeA) then
        {| rs_status := 200;
           rs_body := Some {| dns.Id := 0; dns.Response := true;
                              dns.Rcode := dns.RcodeSuccess;
                              dns.Questions := [qu]; dns.Answer := [example_rr] |} |}
      else
        {| rs_status := 200;
           rs_body := Some {| dns.Id := 0; dns.Response := true; dns.Rcode := 3;
                              dns.Questions := [qu]; dns.Answer := [] |} |}
  | _ => {| rs_status := 400; rs_body := None |}
  end.

Definition stub_world : World := {|
  logrus_Level := stub_level;
  logrus_ParseLevel := stub_ParseLevel;
  logrus_String := stub_String;
  net_ParseIP := stub_ParseIP;
  net_ParseCIDR := stub_ParseCIDR;
  external_subnet := {| net_ip := [203; 0; 113; 0]%N; net_bits := 24 |};
  lookup_endpoint := stub_lookup;
  roundtrip := stub_roundtrip
|}.

(** The package of the design document in the stubbed world. *)
Definition stub_package : Collaborators := @design stub_world.

(** A query for one question. *)
Definition query (id : N) (name : string) (qtype : N) : dns.Msg :=
  {| dns.Id := id; dns.Response := false; dns.Rcode := dns.RcodeSuccess;
     dns.Questions := [ {| dns.Name := name; dns.Qtype := qtype;
                           dns.Qclass := dns.ClassINET |} ];
     dns.Answer := [] |}.

(** The schedule that starts [n] listeners through the channel. *)
Fixpoint handoff_schedule (k n : nat) : list action :=
  match n with
  | O => [ActMain]
  | S n' => ActMain :: ActSend k :: handoff_schedule (S k) n'
  end.

(** Each of [n] goroutines logs and calls ListenAndServe. *)
Definition listen_schedule (n : nat) : list action :=
  flat_map (fun i => [ActServe i Move; ActServe i Move]) (seq 0 n).

(** Both listeners are serving and [main] waits for a signal. *)
Definition serving_schedule : list action :=
  handoff_schedule 0 2 ++ listen_schedule 2 ++ [ActMain].

(** A signal arrives and [main] runs to its end. *)
Definition sigint_schedule : list action :=
  serving_schedule ++ [ActSignal SIGINT; ActMain; ActMain; ActMain].

(** The TCP listener fails after both are serving. *)
Definition tcp_failure : action :=
  ActServe 0 (ListenReturns (Some "accept tcp: too many open files")).


(** ** Case analysis of the sequential part *)

Section startup_cases.
Context `{Collaborators}.

(** The sequential part ends in one of five ways. *)
Inductive startup_case (args : list (string * string)) : Startup Booted → Prop :=
| case_flags e :
    flag_Parse args CommandLine = Err e →
    startup_case args ([EvStderr e], Exit 2)
| case_level fs e :
    flag_Parse args CommandLine = Ok fs →
    ParseLevel (logLevelFlag fs) = Err e →
    startup_case args ([EvLog 149 FatalLevel ("invalid log level: " +:+ e)], Exit 1)
| case_ips fs lvl e :
    flag_Parse args CommandLine = Ok fs →
    ParseLevel (logLevelFlag fs) = Ok lvl →
    CSVtoIPs (endpointIPsFlag fs) = Err e →
    startup_case args
      ([EvPrintln ["log level: "; Level_String lvl];
        EvLog 173 FatalLevel ("error parsing endpoint-ips: " +:+ e)], Exit 1)
| case_provider fs lvl ips e :
    flag_Parse args CommandLine = Ok fs →
    ParseLevel (logLevelFlag fs) = Ok lvl →
    CSVtoIPs (endpointIPsFlag fs) = Ok ips →
    NewDMProvider (endpointFlag fs) (provider_options fs ips) = Err e →
    startup_case args
      ([EvPrintln ["log level: "; Level_String lvl]; EvLog 194 FatalLevel e], Exit 1)
| case_booted fs lvl ips p :
    flag_Parse args CommandLine = Ok fs →
    ParseLevel (logLevelFlag fs) = Ok lvl →
    CSVtoIPs (endpointIPsFlag fs) = Ok ips →
    NewDMProvider (endpointFlag fs) (provider_options fs ips) = Ok p →
    startup_case args
      ([EvPrintln ["log level: "; Level_String lvl]; EvHandleFunc "."],
       Continue {| b_flags := fs; b_ep := endpointFlag fs;
                   b_opts := provider_options fs ips; b_provider := p;
                   b_options := {| Cache := cacheFlag fs |};
                   b_handler := NewHandler p {| Cache := cacheFlag fs |};
                   b_protocols := enabled_protocols fs |}).

End startup_cases.

(** The line of [main.go] a log event comes from. *)
Definition event_line (e : event) : option nat :=
  match e with
  | EvLog line _ _ => Some line
  | _ => None
  end.

Section configuration.
Context `{Collaborators}.

(** A command line that parses, with an invalid log level, an invalid
    endpoint-IP list, or a configuration the provider rejects. *)
Definition config_error (args : list (string * string)) : Prop :=
  ∃ fs, flag_Parse args CommandLine = Ok fs ∧
    (is_Some (res_err (ParseLevel (logLevelFlag fs))) ∨
     is_Some (res_err (CSVtoIPs (endpointIPsFlag fs))) ∨
     is_Some (res_err (NewDMProvider (endpointFlag fs)
                (provider_options fs (res_val [] (CSVtoIPs (endpointIPsFlag fs))))))).

End configuration.

Section listener_claims.
Context `{Collaborators}.

(** "A listener error stops that listener only": when the ListenAndServe of
    goroutine [i] returns error [e] after schedule [sched], the process is
    still running and the other listeners are still serving. *)
Definition listener_failure_isolated (args : list (string * string))
    (sched : list action) (i : nat) (e : string) : Prop :=
  ∀ listenNet,
    st_status (program args sched) = Running →
    st_pool (program args sched) !! i = Some (GServing listenNet) →
    st_status (step (ActServe i (ListenReturns (Some e))) (program args sched))
      = Running ∧
    ∀ (j : nat) net, j ≠ i →
      st_pool (program args sched) !! j = Some (GServing net) →
      st_pool (step (ActServe i (ListenReturns (Some e))) (program args sched)) !! j
        = Some (GServing net).

End listener_claims.

(** A goroutine that has not come back from ListenAndServe. *)
Definition before_return (g : gstate) : bool :=
  match g with
  | GRecv | GStart _ | GListen _ | GServing _ => true
  | _ => false
  end.

(** The action: the ListenAndServe of some goroutine returns nil. *)
Definition returns_nil (a : action) : bool :=
  match a with
  | ActServe _ (ListenReturns None) => true
  | _ => false
  end.

Definition is_shutdown (e : event) : bool :=
  match e with
  | EvShutdown _ => true
  | _ => false
  end.

(** ** Sample handlers and queries *)

(** The handler [main] registers for the empty command line. *)
Definition stub_handler : DMHandler :=
  {| h_provider := {| p_endpoint := gdnsEndpoint;
                      p_opts := provider_options CommandLine [];
                      p_subnet := SubnetAuto |};
     h_options := {| Cache := true |} |}.

(** The handler [main] registers for [-no-ipv6=true]. *)
Definition no_ipv6_handler : DMHandler :=
  {| h_provider := {| p_endpoint := gdnsEndpoint;
                      p_opts := provider_options
                                  (<["no-ipv6" := VBool true]> CommandLine) [];
                      p_subnet := SubnetAuto |};
     h_options := {| Cache := true |} |}.

(** A message with two questions. *)
Definition two_questions : dns.Msg :=
  {| dns.Id := 11; dns.Response := false; dns.Rcode := dns.RcodeSuccess;
     dns.Questions := [ {| dns.Name := example_com; dns.Qtype := dns.TypeA;
                           dns.Qclass := dns.ClassINET |};
                        {| dns.Name := example_com; dns.Qtype := dns.TypeAAAA;
                           dns.Qclass := dns.ClassINET |} ];
     dns.Answer := [] |}.

(** ** What a run shows: fatal entries, transports listened on

    Read off the events of a trace and the points of the goroutines. *)

(** A log entry at fatal level. *)
Definition is_fatal (e : event) : bool :=
  match e with
  | EvLog _ FatalLevel _ => true
  | _ => false
  end.

(** The transports ListenAndServe was called for, in the order of the
    calls. *)
Definition listened (tr : list event) : list string :=
  omap (λ e, match e with
             | EvListenAndServe net _ => Some net
             | _ => None
             end) tr.

(** The transport a goroutine has called ListenAndServe for. *)
Definition called (g : gstate) : option string :=
  match g with
  | GServing p | GShutLog p | GShutdown p | GDone p => Some p
  | _ => None
  end.

(** [main] has received a signal at line 221. *)
Definition signalled (m : mstate) : bool :=
  match m with
  | MLogExit | MClose | MReturn | MDone => true
  | _ => false
  end.

(** [main] has logged its exit at line 223. *)
Definition exit_logged (m : mstate) : bool :=
  match m with
  | MClose | MReturn | MDone => true
  | _ => false
  end.

(** Two values of a flag are of the same kind. *)
Definition same_kind (v w : option Value) : Prop :=
  match v, w with
  | Some (VString _), Some (VString _)
  | Some (VBool _), Some (VBool _)
  | Some (VKeyValue _), Some (VKeyValue _)
  | None, None => True
  | _, _ => False
  end.

(** The TCP listener returns nil and [serve] runs to its end. *)
Definition tcp_return_schedule : list action :=
  serving_schedule ++
  [ActServe 0 (ListenReturns None); ActServe 0 Move; ActServe 0 (ShutdownReturns None)].

(** * Properties of [main.go] *)

Section main_properties.
Context `{Collaborators}.

(** ** A process that is gone stays as it is *)

Lemma step_frozen a s : st_status s ≠ Running → step a s = s.
Proof. unfold step. by destruct (st_status s). Qed.

Lemma exec_frozen sched s : st_status s ≠ Running → exec sched s = s.
Proof.
  revert s. induction sched as [|a sched IH]; intros s Hs; [done|].
  simpl. rewrite step_frozen by done. by apply IH.
Qed.

Lemma exec_app sched1 sched2 s :
  exec (sched1 ++ sched2) s = exec sched2 (exec sched1 s).
Proof. apply fold_left_app. Qed.

Lemma exec_direct_app sched1 sched2 s :
  exec_direct (sched1 ++ sched2) s = exec_direct sched2 (exec_direct sched1 s).
Proof. apply fold_left_app. Qed.

Lemma exec_snoc sched a s : exec (sched ++ [a]) s = step a (exec sched s).
Proof. by rewrite exec_app. Qed.

(** ** The outcomes of the sequential part *)

Lemma main_startup_cases args : startup_case args (main_startup args).
Proof.
  unfold main_startup, parse_flags.
  destruct (flag_Parse args CommandLine) as [fs|e] eqn:Hfs; simpl;
    [|by apply case_flags].
  destruct (ParseLevel (logLevelFlag fs)) as [lvl|e] eqn:Hlvl; simpl;
    [|by eapply case_level].
  unfold if_err.
  destruct (CSVtoIPs (endpointIPsFlag fs)) as [ips|e] eqn:Hips; simpl;
    [|by eapply case_ips].
  destruct (NewDMProvider (endpointFlag fs) (provider_options fs ips))
    as [p|e] eqn:Hp; simpl; [by eapply case_booted|by eapply case_provider].
Qed.

Lemma boot_booted args tr b :
  main_startup args = (tr, Continue b) →
  boot args = {| st_status := Running; st_flags := b_flags b;
                 st_handler := Some (b_handler b);
                 st_main := MLoop (b_protocols b); st_pool := [];
                 st_closed := false; st_trace := tr |}.
Proof. unfold boot. by intros ->. Qed.

Lemma boot_exit args tr code :
  main_startup args = (tr, Exit code) →
  boot args = {| st_status := Exited code; st_flags := CommandLine;
                 st_handler := None; st_main := MDone; st_pool := [];
                 st_closed := false; st_trace := tr |}.
Proof. unfold boot. by intros ->. Qed.

Lemma boot_trace args : st_trace (boot args) = (main_startup args).1.
Proof. unfold boot. by destruct (main_startup args) as [tr [b|code]]. Qed.

Lemma boot_pool args : st_pool (boot args) = [].
Proof. unfold boot. by destruct (main_startup args) as [tr [b|code]]. Qed.

(** ** Call sites *)

Ltac unfold_step :=
  unfold step, main_step, send_step, goroutine_step, signal_step, exit_with,
    set_goroutine, spawn, set_main, set_status, set_closed, set_pool, record in *.

Lemma serve_events (P : event → Prop) addr closed ga g g' evs code :
  (∀ l msg, P (EvLog 105 l msg)) → (∀ l msg, P (EvLog 110 l msg)) →
  (∀ l msg, P (EvLog 113 l msg)) → (∀ l msg, P (EvLog 115 l msg)) →
  (∀ net a, P (EvListenAndServe net a)) → (∀ net, P (EvShutdown net)) →
  serve addr closed ga g = Some (g', evs, code) → Forall P evs.
Proof.
  intros H105 H110 H113 H115 Hl Hs Hserve.
  destruct g, ga as [|[e|]|[e|]]; simpl in Hserve; try case_match; simplify_eq;
    repeat constructor; auto.
Qed.

Lemma step_trace_lines (P : event → Prop) a s :
  (∀ l msg, P (EvLog 105 l msg)) → (∀ l msg, P (EvLog 110 l msg)) →
  (∀ l msg, P (EvLog 113 l msg)) → (∀ l msg, P (EvLog 115 l msg)) →
  (∀ l msg, P (EvLog 223 l msg)) →
  (∀ net addr, P (EvListenAndServe net addr)) → (∀ net, P (EvShutdown net)) →
  Forall P (st_trace s) → Forall P (st_trace (step a s)).
Proof.
  intros H105 H110 H113 H115 H223 Hl Hs Htr.
  unfold step. destruct (st_status s); [|done..].
  destruct a as [|i|i ga|sg].
  - unfold_step. repeat case_match; simpl; rewrite ?Forall_app; repeat split;
      try assumption; repeat constructor; auto.
  - unfold_step. by repeat case_match.
  - unfold goroutine_step.
    destruct (st_pool s !! i) as [g|]; [|done].
    destruct (serve _ _ ga g) as [[[g' evs] code]|] eqn:Hserve; [|done].
    assert (Forall P evs) by (eapply serve_events; eauto).
    destruct code; simpl; by rewrite Forall_app.
  - unfold_step. by repeat case_match.
Qed.

Lemma startup_trace_lines (P : event → Prop) args :
  (∀ msg, P (EvStderr msg)) → (∀ ops, P (EvPrintln ops)) →
  (∀ pat, P (EvHandleFunc pat)) →
  (∀ l msg, P (EvLog 149 l msg)) → (∀ l msg, P (EvLog 173 l msg)) →
  (∀ l msg, P (EvLog 194 l msg)) →
  Forall P (main_startup args).1.
Proof.
  intros. destruct (main_startup_cases args); simpl; repeat constructor; auto.
Qed.

(** ** Flags that the command line leaves alone *)

Lemma flag_Set_other name value fs fs' n :
  flag_Set name value fs = Ok fs' → name ≠ n → fs' !! n = fs !! n.
Proof.
  unfold flag_Set. destruct (fs !! name) as [v|]; [|done].
  destruct (Value_Set v value) as [v'|]; simpl; [|done].
  intros [= <-] Hne. by rewrite lookup_insert_ne.
Qed.

Lemma flag_Parse_other args fs fs' n :
  flag_Parse args fs = Ok fs' → (∀ v, (n, v) ∉ args) → fs' !! n = fs !! n.
Proof.
  revert fs. induction args as [|[name value] args IH]; intros fs; simpl.
  - by intros [= ->].
  - destruct (flag_Set name value fs) as [fs1|] eqn:Hset; simpl; [|done].
    intros Hparse Hnot.
    rewrite (IH fs1 Hparse).
    + eapply flag_Set_other; [done|]. intros ->. apply (Hnot value). by left.
    + intros v Hin. apply (Hnot v). by right.
Qed.

(** C10: no run of the program, whatever the command line and the schedule,
    logs from line 176, the branch that reports "error parsing dns-servers":
    when [CSVtoIPs] fails, the branch before it (line 173) has logged
    "error parsing endpoint-ips" and the process has exited with status 1. *)
Theorem dns_servers_branch_unreachable args :
  (∀ sched l msg, EvLog 176 l msg ∉ st_trace (program args sched)) ∧
  (∀ fs lvl e,
     flag_Parse args CommandLine = Ok fs →
     ParseLevel (logLevelFlag fs) = Ok lvl →
     CSVtoIPs (endpointIPsFlag fs) = Err e →
     main_startup args =
       ([EvPrintln ["log level: "; Level_String lvl];
         EvLog 173 FatalLevel ("error parsing endpoint-ips: " +:+ e)], Exit 1)).
Proof.
  split.
  - intros sched l msg.
    pose (P := λ e, event_line e ≠ Some 176).
    assert (Forall P (st_trace (program args sched))) as Hall.
    { unfold program. generalize (boot args), (boot_trace args).
      induction sched as [|a sched IH] using rev_ind; intros s Hs.
      - simpl. rewrite Hs. by apply startup_trace_lines.
      - rewrite exec_snoc. by apply step_trace_lines; auto. }
    intros Hin. rewrite Forall_forall in Hall. by apply (Hall _ Hin).
  - intros fs lvl e Hfs Hlvl Hips.
    destruct (main_startup_cases args); congruence.
Qed.

(** C7: when the command line carries an invalid log level, an invalid
    endpoint-IP list or a configuration the provider rejects, the process
    exits with status 1 in the sequential part of [main]: under every
    schedule no goroutine was spawned, no handler was registered and
    ListenAndServe was never called. *)
Theorem config_error_no_listener args :
  config_error args →
  ∀ sched,
    st_status (program args sched) = Exited 1 ∧
    st_pool (program args sched) = [] ∧
    st_handler (program args sched) = None ∧
    (∀ net addr, EvListenAndServe net addr ∉ st_trace (program args sched)) ∧
    (∀ pat, EvHandleFunc pat ∉ st_trace (program args sched)).
Proof.
  intros (fs & Hfs & Herr) sched. unfold program.
  pose (P := λ e, match e with EvPrintln _ | EvLog _ _ _ => True | _ => False end).
  assert (∃ tr, main_startup args = (tr, Exit 1) ∧ Forall P tr)
    as (tr & Hrun & Htr).
  { destruct (main_startup_cases args)
      as [e Hfs'|fs' e Hfs'|fs' lvl e Hfs'|fs' lvl ips e Hfs'
         |fs' lvl ips p Hfs' Hlvl Hips Hp];
      [congruence|assert (fs' = fs) as -> by congruence..];
      try (eexists; split; [done|]; by repeat constructor).
    exfalso. destruct Herr as [[e' He]|[[e' He]|[e' He]]].
    - by rewrite Hlvl in He.
    - by rewrite Hips in He.
    - rewrite Hips in He. simpl in He. by rewrite Hp in He. }
  rewrite (boot_exit _ _ _ Hrun), exec_frozen by done. simpl.
  rewrite Forall_forall in Htr.
  repeat split; try done.
  - intros net addr Hin. apply (Htr _ Hin).
  - intros pat Hin. apply (Htr _ Hin).
Qed.

(** C9: when the command line does not set [-endpoint], the endpoint [main]
    hands to [NewDMProvider] is https://dns.google/dns-query. *)
Theorem default_endpoint args tr b :
  (∀ v, ("endpoint", v) ∉ args) →
  main_startup args = (tr, Continue b) →
  b_ep b = "https://dns.google/dns-query" ∧
  NewDMProvider "https://dns.google/dns-query" (b_opts b) = Ok (b_provider b).
Proof.
  intros Hnot Hrun.
  destruct (main_startup_cases args) as [| | | |fs lvl ips p Hfs Hlvl Hips Hp];
    simplify_eq. simpl.
  assert (endpointFlag fs = "https://dns.google/dns-query") as Hep.
  { unfold endpointFlag, flag_string.
    by rewrite (flag_Parse_other _ _ _ _ Hfs Hnot). }
  by rewrite <-Hep.
Qed.

(** ** The hand-over of the transports (lines 210-216) *)

Lemma serve_listenNet addr closed ga g g' evs code :
  serve addr closed ga g = Some (g', evs, code) →
  g' ≠ GRecv ∧ (g ≠ GRecv → listenNet_of g' = listenNet_of g).
Proof.
  intros Hserve.
  destruct g, ga as [|[e|]|[e|]]; simpl in Hserve; try case_match; by simplify_eq.
Qed.

Lemma serve_recv_open addr ga : serve addr false ga GRecv = None.
Proof. by destruct ga as [|[e|]|[e|]]. Qed.

Lemma fmap_listenNet_recv (pool : list gstate) (names : list string) (i : nat) :
  listenNet_of <$> pool = Some <$> names → pool !! i ≠ Some GRecv.
Proof.
  intros Heq Hi.
  assert ((listenNet_of <$> pool) !! i = Some None) as Hl
    by by rewrite list_lookup_fmap, Hi.
  rewrite Heq, list_lookup_fmap in Hl. by destruct (names !! i).
Qed.

Lemma fmap_listenNet_last (pool : list gstate) (given : list string) (i : nat) :
  listenNet_of <$> pool = (Some <$> given) ++ [None] →
  pool !! i = Some GRecv → i = length given.
Proof.
  intros Heq Hi.
  assert ((listenNet_of <$> pool) !! i = Some None) as Hl
    by by rewrite list_lookup_fmap, Hi.
  rewrite Heq in Hl.
  destruct (decide (i < length given)) as [Hlt|Hge].
  - rewrite lookup_app_l, list_lookup_fmap in Hl by by rewrite length_fmap.
    by destruct (given !! i).
  - apply lookup_lt_Some in Hl. rewrite length_app, length_fmap in Hl. simpl in Hl. lia.
Qed.

Lemma fmap_listenNet_insert (pool : list gstate) (i : nat) g g' :
  pool !! i = Some g → listenNet_of g' = listenNet_of g →
  listenNet_of <$> <[i := g']> pool = listenNet_of <$> pool.
Proof.
  intros Hi Heq. rewrite list_fmap_insert, Heq.
  apply list_insert_id. by rewrite list_lookup_fmap, Hi.
Qed.

Lemma step_handoff_inv protocols a s :
  handoff_inv protocols s → handoff_inv protocols (step a s).
Proof.
  unfold handoff_inv, step. intros Hinv.
  destruct (st_status s); [|done..].
  destruct a as [|i|i ga|sg].
  - (* main *)
    unfold main_step.
    destruct (st_main s) as [[|p rest]|p rest| | | | | |] eqn:Hmain; simpl in *;
      try done; try (by rewrite Hmain).
    + destruct Hinv as (given & -> & Hpool & Hclosed).
      by rewrite Hpool, app_nil_r.
    + destruct Hinv as (given & -> & Hpool & Hclosed).
      exists given. by rewrite fmap_app, Hpool.
  - (* the rendezvous *)
    unfold send_step.
    destruct (st_main s) as [rest|p rest| | | | | |] eqn:Hmain; simpl in *;
      try (by rewrite Hmain).
    destruct (st_pool s !! i) as [[]|] eqn:Hi; simpl; try (by rewrite Hmain).
    destruct Hinv as (given & -> & Hpool & Hclosed).
    pose proof (fmap_listenNet_last _ _ _ Hpool Hi) as ->.
    exists (given ++ [p]). split_and!; [by rewrite <-app_assoc| |done].
    rewrite list_fmap_insert, Hpool, fmap_app. simpl.
    rewrite insert_app_r_alt by by rewrite length_fmap.
    by rewrite length_fmap, Nat.sub_diag.
  - (* a goroutine *)
    unfold goroutine_step.
    destruct (st_pool s !! i) as [g|] eqn:Hi; [|done].
    destruct (serve _ _ ga g) as [[[g' evs] code]|] eqn:Hserve; [|done].
    destruct (serve_listenNet _ _ _ _ _ _ _ Hserve) as [Hg' Hname].
    assert (g ≠ GRecv) as Hg.
    { intros ->.
      destruct (st_main s) as [rest|p rest| | | | | |] eqn:Hmain; simpl in Hinv;
        try (by eapply fmap_listenNet_recv).
      - destruct Hinv as (given & _ & _ & Hclosed).
        by rewrite Hclosed, serve_recv_open in Hserve.
      - destruct Hinv as (given & _ & _ & Hclosed).
        by rewrite Hclosed, serve_recv_open in Hserve. }
    assert (listenNet_of <$> <[i := g']> (st_pool s) = listenNet_of <$> st_pool s) as Hsame
      by (apply fmap_listenNet_insert with g; auto).
    unfold handoff_rel in *.
    destruct code; simpl; destruct (st_main s); by rewrite Hsame.
  - (* a signal *)
    unfold signal_step.
    by destruct (st_main s) eqn:Hmain; simpl; rewrite ?Hmain.
Qed.

Lemma exec_handoff_inv protocols sched s :
  handoff_inv protocols s → handoff_inv protocols (exec sched s).
Proof.
  revert s. induction sched as [|a sched IH]; intros s Hs; [done|].
  simpl. by apply IH, step_handoff_inv.
Qed.

Lemma boot_handoff_inv args tr b :
  main_startup args = (tr, Continue b) → handoff_inv (b_protocols b) (boot args).
Proof.
  intros Hrun. rewrite (boot_booted _ _ _ Hrun). by exists [].
Qed.

(** The schedule [handoff_schedule] carries the loop to its end: the
    hand-over never blocks for good. *)
Lemma handoff_schedule_runs rest s :
  st_status s = Running → st_main s = MLoop rest →
  exec (handoff_schedule (length (st_pool s)) (length rest)) s =
    set_main MNotify (set_pool (st_pool s ++ (GStart <$> rest)) s).
Proof.
  revert s. induction rest as [|p rest IH]; intros s Hrun Hmain.
  - simpl. unfold step, main_step. rewrite Hrun, Hmain, app_nil_r.
    by destruct s.
  - cbn [handoff_schedule length exec fold_left].
    change (fold_left (λ s a, step a s) ?l ?x) with (exec l x).
    assert (step ActMain s = set_main (MSend p rest) (spawn GRecv s)) as ->
      by (unfold step, main_step; by rewrite Hrun, Hmain).
    assert (step (ActSend (length (st_pool s))) (set_main (MSend p rest) (spawn GRecv s))
            = set_main (MLoop rest) (set_pool (st_pool s ++ [GStart p]) s)) as ->.
    { unfold step, send_step. simpl. rewrite Hrun.
      rewrite lookup_app_r, Nat.sub_diag by done. simpl.
      unfold set_goroutine. simpl.
      rewrite insert_app_r_alt, Nat.sub_diag by done. by destruct s. }
    set (s2 := set_main (MLoop rest) (set_pool (st_pool s ++ [GStart p]) s)).
    replace (S (length (st_pool s))) with (length (st_pool s2))
      by (simpl; rewrite length_app; simpl; lia).
    rewrite IH by done. subst s2. simpl.
    rewrite <-app_assoc. by destruct s.
Qed.

(** ** The channel against direct spawning *)

Lemma serve_closed addr closed closed' ga g :
  g ≠ GRecv → serve addr closed ga g = serve addr closed' ga g.
Proof. by destruct g. Qed.

Lemma handoff_sim_observation c d :
  handoff_sim c d → observation c = observation d.
Proof. intros (Hst & _ & _ & Htr & _). unfold observation. by rewrite Hst, Htr. Qed.

Lemma not_elem_of_insert (l : list gstate) (i : nat) x y :
  x ∉ l → x ≠ y → x ∉ <[i := y]> l.
Proof.
  intros Hl Hy [j Hj]%list_elem_of_lookup.
  apply list_lookup_insert_Some in Hj as [(_ & -> & _)|[_ Hj]]; [done|].
  apply Hl, list_elem_of_lookup. by exists j.
Qed.

(** The two pools of matching states: equal, or the channel version has one
    more goroutine, which waits on the open channel. *)
Lemma handoff_sim_pools c d :
  handoff_sim c d →
  st_pool c = st_pool d ∨
  (st_pool c = st_pool d ++ [GRecv] ∧ st_closed c = false).
Proof.
  intros (_ & _ & _ & _ & _ & Hm).
  destruct (st_main c), (st_main d); try done; tauto.
Qed.

(** A goroutine makes the same move on both sides. *)
Lemma goroutine_step_sim c d i ga :
  handoff_sim c d → handoff_sim (goroutine_step i ga c) (goroutine_step i ga d).
Proof.
  intros Hsim. pose proof (handoff_sim_pools _ _ Hsim) as Hpools.
  destruct Hsim as (Hst & Hfl & Hh & Htr & Hnr & Hm).
  unfold goroutine_step.
  destruct (st_pool d !! i) as [g|] eqn:Hd.
  - assert (g ≠ GRecv) as Hg.
    { intros ->. apply Hnr, list_elem_of_lookup. by exists i. }
    assert (st_pool c !! i = Some g) as Hc.
    { destruct Hpools as [->|[-> _]]; [done|]. by apply lookup_app_l_Some. }
    rewrite Hc, Hfl, (serve_closed _ (st_closed c) (st_closed d)) by done.
    destruct (serve _ _ ga g) as [[[g' evs] code]|] eqn:Hserve;
      [|by repeat split].
    destruct (serve_listenNet _ _ _ _ _ _ _ Hserve) as [Hg' _].
    assert (st_pool c = st_pool d →
            <[i := g']> (st_pool c) = <[i := g']> (st_pool d)) as Heq
      by by intros ->.
    assert (st_pool c = st_pool d ++ [GRecv] →
            <[i := g']> (st_pool c) = <[i := g']> (st_pool d) ++ [GRecv]) as Happ.
    { intros ->. apply insert_app_l. by eapply lookup_lt_Some. }
    repeat split.
    + destruct code; simpl; congruence.
    + destruct code; simpl; congruence.
    + destruct code; simpl; congruence.
    + destruct code; simpl; congruence.
    + destruct code; simpl; by apply not_elem_of_insert.
    + destruct code; simpl;
        destruct (st_main c), (st_main d); try done; intuition.
  - assert (match st_pool c !! i with
            | Some g => match serve (listenAddressFlag (st_flags c)) (st_closed c) ga g with
                        | Some (g', evs, code) =>
                            exit_with code (set_goroutine i g' (record evs c))
                        | None => c
                        end
            | None => c
            end = c) as ->; [|by repeat split].
    destruct Hpools as [->|[-> ->]]; [by rewrite Hd|].
    destruct (decide (i = length (st_pool d))) as [->|Hne].
    + rewrite lookup_app_r, Nat.sub_diag by done. simpl.
      by destruct ga.
    + rewrite lookup_ge_None_2; [done|].
      apply lookup_ge_None in Hd. rewrite length_app. simpl. lia.
Qed.

(** A signal has the same effect on both sides. *)
Lemma signal_step_sim c d sg :
  handoff_sim c d → handoff_sim (signal_step sg c) (signal_step sg d).
Proof.
  intros (Hst & Hfl & Hh & Htr & Hnr & Hm). unfold signal_step.
  destruct (st_main c) eqn:Hc, (st_main d) eqn:Hd; try done;
    repeat split; simpl; rewrite ?Hc, ?Hd; done.
Qed.

Lemma step_direct_main d :
  st_status d = Running → exec_direct [ActMain] d = main_step_direct d.
Proof. intros Hd. simpl. unfold step_direct. by rewrite Hd. Qed.

Lemma step_main c : st_status c = Running → step ActMain c = main_step c.
Proof. intros Hc. unfold step. by rewrite Hc. Qed.

Lemma step_send c i : st_status c = Running → step (ActSend i) c = send_step i c.
Proof. intros Hc. unfold step. by rewrite Hc. Qed.

(** A move of [main] in the channel version is matched by at most one move
    of [main] in the direct version: spawning the receiver and closing the
    channel are matched by none. *)
Lemma main_step_forward c d :
  st_status c = Running → handoff_sim c d →
  ∃ sched', handoff_sim (main_step c) (exec_direct sched' d).
Proof.
  intros Hrun (Hst & Hfl & Hh & Htr & Hnr & Hm).
  assert (st_status d = Running) as Hrund by congruence.
  unfold main_step.
  destruct (st_main c) as [[|p rest]|p rest| | | | | |] eqn:Hc,
           (st_main d) as [rest'|p' rest'| | | | | |] eqn:Hd; try done.
  - (* the loop ends *)
    destruct Hm as (-> & Hpool & Hclosed).
    exists [ActMain]. rewrite step_direct_main by done.
    unfold main_step_direct. rewrite Hd. by repeat split.
  - (* go serve(servers) *)
    destruct Hm as (-> & Hpool & Hclosed).
    exists []. repeat split; simpl; try done. rewrite Hd.
    by rewrite Hpool.
  - (* blocked in the send *)
    exists []. repeat split; simpl; try done. by rewrite Hc, Hd.
  - exists [ActMain]. rewrite step_direct_main by done.
    unfold main_step_direct. rewrite Hd. by repeat split.
  - exists []. repeat split; simpl; try done. by rewrite Hc, Hd.
  - exists [ActMain]. rewrite step_direct_main by done.
    unfold main_step_direct. rewrite Hd. repeat split; simpl; congruence.
  - (* the deferred close *)
    exists []. repeat split; simpl; try done. by rewrite Hd.
  - exists [ActMain]. rewrite step_direct_main by done.
    unfold main_step_direct. rewrite Hd. by repeat split.
  - exists []. repeat split; simpl; try done. by rewrite Hc, Hd.
Qed.

(** The hand-over in the channel version is the spawn of the direct one. *)
Lemma send_step_forward c d i :
  st_status c = Running → handoff_sim c d →
  ∃ sched', handoff_sim (send_step i c) (exec_direct sched' d).
Proof.
  intros Hrun Hsim.
  assert (handoff_sim c (exec_direct [] d)) as Hstay by done.
  destruct Hsim as (Hst & Hfl & Hh & Htr & Hnr & Hm).
  assert (st_status d = Running) as Hrund by congruence.
  unfold send_step.
  destruct (st_main c) as [rest|p rest| | | | | |] eqn:Hc; try by exists [].
  destruct (st_pool c !! i) as [[]|] eqn:Hi; try by exists [].
  destruct (st_main d) as [rest'|p' rest'| | | | | |] eqn:Hd; try done.
  destruct Hm as (-> & Hpool & Hclosed).
  assert (i = length (st_pool d)) as ->.
  { rewrite Hpool in Hi.
    destruct (decide (i < length (st_pool d))) as [Hlt|Hge].
    - rewrite lookup_app_l in Hi by done.
      exfalso. apply Hnr, list_elem_of_lookup. by exists i.
    - apply lookup_lt_Some in Hi. rewrite length_app in Hi. simpl in Hi. lia. }
  exists [ActMain]. rewrite step_direct_main by done.
  unfold main_step_direct. rewrite Hd.
  repeat split; simpl; try done.
  - rewrite not_elem_of_app. split; [done|]. by intros ?%list_elem_of_singleton.
  - rewrite Hpool. by rewrite insert_app_r_alt, Nat.sub_diag.
Qed.

(** Every step of the channel version is matched by the direct version. *)
Lemma step_forward c d a :
  handoff_sim c d → ∃ sched', handoff_sim (step a c) (exec_direct sched' d).
Proof.
  intros Hsim.
  destruct (st_status c) eqn:Hrun;
    [|exists []; rewrite step_frozen; [done|by rewrite Hrun]..].
  assert (st_status d = Running) as Hrund
    by (destruct Hsim as (Hst & _); congruence).
  destruct a as [|i|i ga|sg].
  - rewrite step_main by done. by apply main_step_forward.
  - rewrite step_send by done. by apply send_step_forward.
  - exists [ActServe i ga]. simpl. unfold step, step_direct.
    rewrite Hrun, Hrund. by apply goroutine_step_sim.
  - exists [ActSignal sg]. simpl. unfold step, step_direct.
    rewrite Hrun, Hrund. by apply signal_step_sim.
Qed.

Lemma exec_forward sched c d :
  handoff_sim c d → ∃ sched', handoff_sim (exec sched c) (exec_direct sched' d).
Proof.
  revert c d. induction sched as [|a sched IH]; intros c d Hsim.
  - by exists [].
  - destruct (step_forward c d a Hsim) as (sched1 & Hsim1).
    destruct (IH _ _ Hsim1) as (sched2 & Hsim2).
    exists (sched1 ++ sched2). by rewrite exec_direct_app.
Qed.

(** A move of [main] in the direct version is matched by one or two moves
    of the channel version: a spawn by the spawn and the hand-over, the
    return by the close and the return. *)
Lemma main_step_backward c d :
  st_status c = Running → handoff_sim c d →
  ∃ sched', handoff_sim (exec sched' c) (main_step_direct d).
Proof.
  intros Hrun (Hst & Hfl & Hh & Htr & Hnr & Hm).
  unfold main_step_direct.
  destruct (st_main c) as [rest|p rest| | | | | |] eqn:Hc,
           (st_main d) as [rest'|p' rest'| | | | | |] eqn:Hd; try done.
  - destruct Hm as (-> & Hpool & Hclosed). destruct rest as [|p rest].
    + exists [ActMain]. simpl. rewrite step_main by done.
      unfold main_step. rewrite Hc. by repeat split.
    + exists [ActMain; ActSend (length (st_pool c))]. simpl.
      rewrite step_main by done. unfold main_step at 1. rewrite Hc.
      rewrite step_send by done. unfold send_step. simpl.
      rewrite lookup_app_r, Nat.sub_diag by done. simpl.
      repeat split; simpl; try done.
      * rewrite not_elem_of_app. split; [done|]. by intros ?%list_elem_of_singleton.
      * by rewrite insert_app_r_alt, Nat.sub_diag, Hpool.
  - destruct Hm as (-> & Hpool & Hclosed).
    exists [ActSend (length (st_pool d))]. simpl.
    rewrite step_send by done. unfold send_step. rewrite Hc, Hpool.
    rewrite lookup_app_r, Nat.sub_diag by done. simpl.
    repeat split; simpl; try done.
    + rewrite not_elem_of_app. split; [done|]. by intros ?%list_elem_of_singleton.
    + by rewrite Hpool, insert_app_r_alt, Nat.sub_diag.
  - exists [ActMain]. simpl. rewrite step_main by done.
    unfold main_step. rewrite Hc. by repeat split.
  - exists []. repeat split; simpl; try done. by rewrite Hc, Hd.
  - exists [ActMain]. simpl. rewrite step_main by done.
    unfold main_step. rewrite Hc. repeat split; simpl; congruence.
  - exists [ActMain; ActMain]. simpl. rewrite (step_main c) by done.
    unfold main_step at 1. rewrite Hc. rewrite step_main by done.
    unfold main_step. simpl. by repeat split.
  - exists [ActMain]. simpl. rewrite step_main by done.
    unfold main_step. rewrite Hc. by repeat split.
  - exists []. repeat split; simpl; try done. by rewrite Hc, Hd.
Qed.

(** Every step of the direct version is matched by the channel version. *)
Lemma step_backward c d a :
  handoff_sim c d → ∃ sched', handoff_sim (exec sched' c) (step_direct a d).
Proof.
  intros Hsim.
  assert (st_status c = st_status d) as Hst by by destruct Hsim.
  unfold step_direct.
  destruct (st_status d) eqn:Hrund; [|by exists []..].
  destruct a as [|i|i ga|sg].
  - by apply main_step_backward.
  - by exists [].
  - exists [ActServe i ga]. simpl. unfold step.
    rewrite Hst. by apply goroutine_step_sim.
  - exists [ActSignal sg]. simpl. unfold step.
    rewrite Hst. by apply signal_step_sim.
Qed.

Lemma exec_backward sched c d :
  handoff_sim c d → ∃ sched', handoff_sim (exec sched' c) (exec_direct sched d).
Proof.
  revert c d. induction sched as [|a sched IH]; intros c d Hsim.
  - by exists [].
  - destruct (step_backward c d a Hsim) as (sched1 & Hsim1).
    destruct (IH _ _ Hsim1) as (sched2 & Hsim2).
    exists (sched1 ++ sched2). by rewrite exec_app.
Qed.

Lemma boot_sim args : handoff_sim (boot args) (boot args).
Proof.
  unfold boot. destruct (main_startup args) as [tr [b|code]];
    repeat split; simpl; try done; by intros ?%elem_of_nil.
Qed.

Lemma handoff_sim_serving_pool c d :
  handoff_sim c d → serving_pool c = serving_pool d.
Proof.
  intros Hsim. unfold serving_pool.
  destruct (handoff_sim_pools _ _ Hsim) as [->|[-> _]]; [done|].
  rewrite filter_app, filter_cons_False, filter_nil, app_nil_r; [done|].
  by intros [].
Qed.

Lemma listenNet_of_Some g : g ≠ GRecv → is_Some (listenNet_of g).
Proof. by destruct g. Qed.

(** Under the invariant, the goroutine at index [i] serves the protocol at
    index [i]. *)
Lemma handoff_inv_lookup protocols s (i : nat) g :
  handoff_inv protocols s → st_pool s !! i = Some g → g ≠ GRecv →
  ∃ p, listenNet_of g = Some p ∧ protocols !! i = Some p.
Proof.
  unfold handoff_inv, handoff_rel. intros Hinv Hi Hg.
  destruct (listenNet_of_Some g Hg) as [p Hp]. exists p. split; [done|].
  assert ((listenNet_of <$> st_pool s) !! i = Some (Some p)) as Hl
    by by rewrite list_lookup_fmap, Hi, <-Hp.
  assert (∀ given : list string,
            (Some <$> given) !! i = Some (Some p) → given !! i = Some p)
    as Hgiven.
  { intros given. rewrite list_lookup_fmap. destruct (given !! i); naive_solver. }
  destruct (st_main s) as [rest|q rest| | | | | |].
  - destruct Hinv as (given & -> & Hpool & _). rewrite Hpool in Hl.
    by apply lookup_app_l_Some, Hgiven.
  - destruct Hinv as (given & -> & Hpool & _). rewrite Hpool in Hl.
    apply lookup_app_l_Some, Hgiven.
    apply lookup_app_Some in Hl as [Hl|[_ Hl]]; [done|].
    by destruct (i - length (Some <$> given)) as [|[|?]].
  - rewrite Hinv in Hl. by apply Hgiven.
  - rewrite Hinv in Hl. by apply Hgiven.
  - rewrite Hinv in Hl. by apply Hgiven.
  - rewrite Hinv in Hl. by apply Hgiven.
  - rewrite Hinv in Hl. by apply Hgiven.
  - rewrite Hinv in Hl. by apply Hgiven.
Qed.

Lemma handoff_inv_done protocols s :
  handoff_inv protocols s → loop_done (st_main s) = true →
  listenNet_of <$> st_pool s = Some <$> protocols.
Proof.
  unfold handoff_inv, handoff_rel. by destruct (st_main s).
Qed.

(** Once the loop is over there is one goroutine per enabled transport. *)
Lemma listeners_count fs s :
  listenNet_of <$> st_pool s = Some <$> enabled_protocols fs →
  listeners_for "tcp" s = (if enableTCPFlag fs then 1 else 0) ∧
  listeners_for "udp" s = (if enableUDPFlag fs then 1 else 0) ∧
  length (st_pool s) = listeners_for "tcp" s + listeners_for "udp" s.
Proof.
  unfold enabled_protocols, listeners_for.
  destruct (enableTCPFlag fs), (enableUDPFlag fs); simpl; intros Hpool;
    destruct (st_pool s) as [|g1 [|g2 [|g3 pool]]]; simplify_eq/=;
    rewrite ?filter_cons, ?filter_nil;
    repeat match goal with Hg : listenNet_of _ = _ |- _ => rewrite Hg; clear Hg end;
    done.
Qed.

Lemma handoff_completes args tr b :
  main_startup args = (tr, Continue b) →
  program args (handoff_schedule 0 (length (b_protocols b))) =
    set_main MNotify (set_pool (GStart <$> b_protocols b) (boot args)).
Proof.
  intros Hrun. unfold program.
  pose proof (handoff_schedule_runs (b_protocols b) (boot args)) as Hr.
  rewrite (boot_booted _ _ _ Hrun) in *. by apply Hr.
Qed.

(** C8: whatever the TCP and UDP toggles, under every schedule the goroutine
    [main] spawned as number [i] serves the enabled protocol number [i],
    which it received on the channel; once [main] has left its loop there is
    one goroutine per enabled transport; the hand-over can always complete;
    and the channel version and the version that spawns each goroutine with
    its transport have the same observations (exit status and events) and
    the same goroutines with a transport, schedule for schedule. *)
Theorem handoff_one_listener_per_transport args tr b :
  main_startup args = (tr, Continue b) →
  b_protocols b = enabled_protocols (b_flags b) ∧
  (∀ sched (i : nat) g,
     st_pool (program args sched) !! i = Some g → g ≠ GRecv →
     ∃ p, listenNet_of g = Some p ∧ b_protocols b !! i = Some p) ∧
  (∀ sched,
     loop_done (st_main (program args sched)) = true →
     listenNet_of <$> st_pool (program args sched) = Some <$> b_protocols b ∧
     listeners_for "tcp" (program args sched)
       = (if enableTCPFlag (b_flags b) then 1 else 0) ∧
     listeners_for "udp" (program args sched)
       = (if enableUDPFlag (b_flags b) then 1 else 0) ∧
     length (st_pool (program args sched))
       = listeners_for "tcp" (program args sched)
         + listeners_for "udp" (program args sched)) ∧
  (st_status (program args (handoff_schedule 0 (length (b_protocols b)))) = Running ∧
   st_main (program args (handoff_schedule 0 (length (b_protocols b)))) = MNotify ∧
   st_pool (program args (handoff_schedule 0 (length (b_protocols b))))
     = GStart <$> b_protocols b) ∧
  (∀ sched, ∃ sched',
     observation (program_direct args sched') = observation (program args sched) ∧
     serving_pool (program_direct args sched') = serving_pool (program args sched)) ∧
  (∀ sched, ∃ sched',
     observation (program args sched') = observation (program_direct args sched) ∧
     serving_pool (program args sched') = serving_pool (program_direct args sched)).
Proof.
  intros Hrun.
  assert (b_protocols b = enabled_protocols (b_flags b)) as Hprotos.
  { destruct (main_startup_cases args); by simplify_eq. }
  assert (∀ sched, handoff_inv (b_protocols b) (program args sched)) as Hinv.
  { intros sched. by eapply exec_handoff_inv, boot_handoff_inv. }
  split_and!.
  - done.
  - intros sched i g. apply handoff_inv_lookup, Hinv.
  - intros sched Hdone.
    pose proof (handoff_inv_done _ _ (Hinv sched) Hdone) as Hpool.
    split; [done|]. apply listeners_count. by rewrite <-Hprotos.
  - by rewrite (handoff_completes _ _ _ Hrun), (boot_booted _ _ _ Hrun).
  - by rewrite (handoff_completes _ _ _ Hrun).
  - by rewrite (handoff_completes _ _ _ Hrun).
  - intros sched.
    destruct (exec_forward sched _ _ (boot_sim args)) as (sched' & Hsim).
    exists sched'. split.
    + symmetry. by apply handoff_sim_observation.
    + symmetry. by apply handoff_sim_serving_pool.
  - intros sched.
    destruct (exec_backward sched _ _ (boot_sim args)) as (sched' & Hsim).
    exists sched'. split.
    + by apply handoff_sim_observation.
    + by apply handoff_sim_serving_pool.
Qed.

(** ** Listener errors and shutdown (lines 109-116, 219-223) *)

(** C1, as the code has it: when the ListenAndServe of any listener returns
    an error, [serve] logs "Failed to setup the ... server" at line 110 and
    the whole process exits with status 1; after that no schedule moves
    anything, so no other listener goes on serving. *)
Theorem listener_failure_exits args sched (i : nat) listenNet e :
  st_status (program args sched) = Running →
  st_pool (program args sched) !! i = Some (GServing listenNet) →
  st_status (step (ActServe i (ListenReturns (Some e))) (program args sched))
    = Exited 1 ∧
  st_trace (step (ActServe i (ListenReturns (Some e))) (program args sched))
    = st_trace (program args sched) ++
      [EvLog 110 FatalLevel
         ("Failed to setup the " +:+ listenNet +:+ " server: " +:+ e +:+ newline)] ∧
  ∀ sched',
    exec sched' (step (ActServe i (ListenReturns (Some e))) (program args sched))
    = step (ActServe i (ListenReturns (Some e))) (program args sched).
Proof.
  intros Hrun Hi.
  assert (step (ActServe i (ListenReturns (Some e))) (program args sched)
          = set_status (Exited 1)
              (set_goroutine i (GServing listenNet)
                 (record [EvLog 110 FatalLevel
                            ("Failed to setup the " +:+ listenNet +:+ " server: " +:+
                             e +:+ newline)] (program args sched)))) as ->.
  { unfold step, goroutine_step. by rewrite Hrun, Hi. }
  split_and!; [done..|].
  intros sched'. by apply exec_frozen.
Qed.

(** [server.Shutdown] is reached only through a ListenAndServe that returns
    nil: under a schedule in which none does, no goroutine gets past line
    109 and Shutdown is never called, whatever signals arrive. *)
Lemma shutdown_needs_nil_return args sched :
  Forall (λ a, returns_nil a = false) sched →
  Forall (λ g, before_return g = true) (st_pool (program args sched)) ∧
  Forall (λ e, is_shutdown e = false) (st_trace (program args sched)).
Proof.
  unfold program. induction sched as [|a sched IH] using rev_ind; intros Hall.
  - simpl. rewrite boot_pool, boot_trace. split; [done|].
    destruct (main_startup_cases args); simpl; by repeat constructor.
  - apply Forall_app in Hall as [Hsched [Ha _]%Forall_cons].
    rewrite exec_snoc. destruct (IH Hsched) as [Hpool Htr]. clear IH Hsched.
    generalize dependent (exec sched (boot args)). intros s Hpool Htr.
    unfold step. destruct (st_status s); [|done..].
    destruct a as [|i|i ga|sg].
    + unfold main_step. destruct (st_main s) as [[|p rest]|p rest| | | | | |];
        simpl; rewrite ?Forall_app; repeat split; try done; by repeat constructor.
    + unfold send_step. destruct (st_main s); try done.
      destruct (st_pool s !! i) as [[]|]; try done. simpl. split; [|done].
      by apply Forall_insert.
    + unfold goroutine_step. destruct (st_pool s !! i) as [g|] eqn:Hi; [|done].
      destruct (serve _ _ ga g) as [[[g' evs] code]|] eqn:Hserve; [|done].
      assert (before_return g = true) as Hg
        by (rewrite Forall_forall in Hpool; eapply Hpool, list_elem_of_lookup_2, Hi).
      assert (before_return g' = true ∧ Forall (λ e, is_shutdown e = false) evs)
        as [Hg' Hevs].
      { destruct g, ga as [|[e|]|[e|]]; simpl in *; try case_match; simplify_eq;
          split; by repeat constructor. }
      destruct code; simpl; rewrite Forall_app; split_and!; try done;
        by apply Forall_insert.
    + unfold signal_step. by destruct (st_main s).
Qed.

End main_properties.

(** * Properties of the pipeline *)

Section pipeline_properties.
Context `{World}.

(** ** Effective TTL *)

Lemma effective_ttl_error a :
  dns.Rcode a ≠ dns.RcodeSuccess → effective_ttl a = 0%N.
Proof.
  intros Hne. unfold effective_ttl.
  destruct (N.eqb_spec (dns.Rcode a) dns.RcodeSuccess); done.
Qed.

Lemma effective_ttl_no_record a : dns.Answer a = [] → effective_ttl a = 0%N.
Proof. intros Hnil. unfold effective_ttl. rewrite Hnil. by case_match. Qed.

Lemma effective_ttl_positive a :
  (0 < effective_ttl a)%N →
  dns.Rcode a = dns.RcodeSuccess ∧ dns.Answer a ≠ [].
Proof.
  intros Hpos. split.
  - destruct (decide (dns.Rcode a = dns.RcodeSuccess)) as [|Hne]; [done|].
    rewrite effective_ttl_error in Hpos by done. lia.
  - intros Hnil. rewrite effective_ttl_no_record in Hpos by done. lia.
Qed.

Lemma fold_min_le (rrs : list dns.RR) (m : N) :
  (fold_left (λ acc r, N.min acc (dns.rr_ttl r)) rrs m ≤ m)%N ∧
  (∀ r, r ∈ rrs → fold_left (λ acc r, N.min acc (dns.rr_ttl r)) rrs m ≤ dns.rr_ttl r)%N.
Proof.
  revert m. induction rrs as [|x rrs IH]; intros m; simpl.
  - split; [lia|]. by intros r ?%elem_of_nil.
  - destruct (IH (N.min m (dns.rr_ttl x))) as [Hle Hall]. split; [lia|].
    intros r [->|Hin]%elem_of_cons; [lia|by apply Hall].
Qed.

Lemma fold_min_attained (rrs : list dns.RR) (m : N) :
  fold_left (λ acc r, N.min acc (dns.rr_ttl r)) rrs m = m ∨
  ∃ r, r ∈ rrs ∧ fold_left (λ acc r, N.min acc (dns.rr_ttl r)) rrs m = dns.rr_ttl r.
Proof.
  revert m. induction rrs as [|x rrs IH]; intros m; simpl; [by left|].
  destruct (IH (N.min m (dns.rr_ttl x))) as [->|(r & Hin & ->)].
  - destruct (N.min_spec m (dns.rr_ttl x)) as [[_ ->]|[_ ->]]; [by left|].
    right. exists x. split; [by left|done].
  - right. exists r. split; [by right|done].
Qed.

(** The effective TTL of a cacheable answer is the minimum of the TTLs of
    its records. *)
Lemma effective_ttl_min a :
  (0 < effective_ttl a)%N →
  (∀ r, r ∈ dns.Answer a → (effective_ttl a ≤ dns.rr_ttl r)%N) ∧
  (∃ r, r ∈ dns.Answer a ∧ effective_ttl a = dns.rr_ttl r).
Proof.
  intros Hpos. destruct (effective_ttl_positive a Hpos) as [Hrc Hrrs].
  unfold effective_ttl in *. rewrite Hrc in *. simpl in *.
  destruct (dns.Answer a) as [|rr rest]; [done|].
  destruct (fold_min_le rest (dns.rr_ttl rr)) as [Hle Hall].
  split.
  - intros r [->|Hin]%elem_of_cons; [done|by apply Hall].
  - destruct (fold_min_attained rest (dns.rr_ttl rr)) as [->|(r & Hin & ->)].
    + exists rr. split; [by left|done].
    + exists r. split; [by right|done].
Qed.

(** ** The cache *)

Lemma Lookup_Some fp now c a :
  Lookup fp now c = Some a →
  cs_enabled c = true ∧
  ∃ e, cs_entries c !! fp = Some e ∧ a = ce_answer e ∧
       (now < ce_inserted e + ce_ttl e)%N.
Proof.
  unfold Lookup, entry_valid. destruct (cs_enabled c); [|done].
  destruct (cs_entries c !! fp) as [e|]; [|done].
  destruct (N.ltb_spec now (ce_inserted e + ce_ttl e)); [|done].
  intros [= <-]. eauto.
Qed.

Lemma Lookup_expired fp now c e :
  cs_entries c !! fp = Some e → (ce_inserted e + ce_ttl e ≤ now)%N →
  Lookup fp now c = None.
Proof.
  intros He Hexp. unfold Lookup, entry_valid. rewrite He.
  destruct (cs_enabled c); [|done].
  destruct (N.ltb_spec now (ce_inserted e + ce_ttl e)); [lia|done].
Qed.

Lemma Lookup_later fp now now' c :
  Lookup fp now c = None → (now ≤ now')%N → Lookup fp now' c = None.
Proof.
  unfold Lookup, entry_valid. destruct (cs_enabled c); [|done].
  destruct (cs_entries c !! fp) as [e|]; [|done].
  destruct (N.ltb_spec now (ce_inserted e + ce_ttl e)); [done|].
  intros _ Hle. destruct (N.ltb_spec now' (ce_inserted e + ce_ttl e)); [lia|done].
Qed.

Lemma store_uncacheable fp a now c : effective_ttl a = 0%N → store fp a now c = c.
Proof. intros Hz. unfold store. by rewrite Hz. Qed.

Lemma store_enabled fp a now c : cs_enabled (store fp a now c) = cs_enabled c.
Proof. unfold store. by case_match. Qed.

Lemma store_inflight fp a now c : cs_inflight (store fp a now c) = cs_inflight c.
Proof. unfold store. by case_match. Qed.

Lemma Lookup_store fp a t now c :
  cs_enabled c = true → (0 < effective_ttl a)%N →
  (now < t + effective_ttl a)%N →
  Lookup fp now (store fp a t c) = Some a.
Proof.
  intros Hen Hpos Hnow. unfold store, Lookup, entry_valid.
  destruct (N.ltb_spec 0 (effective_ttl a)); [|lia]. simpl.
  rewrite Hen, lookup_insert_eq. simpl.
  by destruct (N.ltb_spec now (t + effective_ttl a)); [|lia].
Qed.

Lemma unmark_store_mark fp a now c :
  fp ∉ cs_inflight c → unmark fp (store fp a now (mark fp c)) = store fp a now c.
Proof.
  intros Hfp. unfold unmark, store, mark. destruct c as [en entries infl].
  case_match; simpl in *; f_equal; set_solver.
Qed.

Lemma unmark_mark fp c : fp ∉ cs_inflight c → unmark fp (mark fp c) = c.
Proof.
  intros Hfp. unfold unmark, mark. destruct c as [en entries infl].
  simpl in *; f_equal; set_solver.
Qed.

Lemma GetOrFetch_hit fp fetchFn now st a :
  Lookup fp now (ps_cache st) = Some a →
  GetOrFetch fp fetchFn now st = (Answered a, st).
Proof.
  intros Hhit. unfold GetOrFetch.
  destruct (Lookup_Some _ _ _ _ Hhit) as [-> _]. by rewrite Hhit.
Qed.

Lemma GetOrFetch_miss fp fetchFn now st :
  cs_enabled (ps_cache st) = true →
  Lookup fp now (ps_cache st) = None → fp ∉ cs_inflight (ps_cache st) →
  GetOrFetch fp fetchFn now st = fetched fp now (ps_cache st) (fetchFn (ps_calls st)).
Proof.
  intros Hen Hmiss Hfp. unfold GetOrFetch, fetched.
  rewrite Hen, Hmiss, decide_False by done.
  destruct (fetchFn (ps_calls st)) as [[a|e] calls]; simpl;
    by rewrite ?unmark_store_mark, ?unmark_mark.
Qed.

Lemma GetOrFetch_disabled fp fetchFn now st :
  cs_enabled (ps_cache st) = false →
  GetOrFetch fp fetchFn now st =
    ((fetchFn (ps_calls st)).1,
     {| ps_cache := ps_cache st; ps_calls := (fetchFn (ps_calls st)).2 |}).
Proof.
  intros Hen. unfold GetOrFetch. rewrite Hen.
  by destruct (fetchFn (ps_calls st)).
Qed.

(** ** The translator *)

Lemma effective_ttl_in_context q a :
  effective_ttl (in_context q a) = effective_ttl a.
Proof. done. Qed.

Lemma effective_ttl_empty_answer q : effective_ttl (empty_answer q) = 0%N.
Proof. done. Qed.

Lemma effective_ttl_servfail q : effective_ttl (servfail q) = 0%N.
Proof. done. Qed.

(** The AAAA-disable policy answers before any upstream call. *)
Lemma Translate_no_ipv6 p rnd q qu calls :
  NoAAAA (p_opts p) = true → dns.Questions q = [qu] →
  dns.Qtype qu = dns.TypeAAAA →
  Translate p rnd q calls = (Answered (empty_answer q), calls).
Proof.
  intros Hno Hq Hty. unfold Translate. by rewrite Hq, Hno, Hty.
Qed.

(** A cacheable answer costs exactly one upstream call. *)
Lemma Translate_cacheable p rnd q calls a calls' :
  Translate p rnd q calls = (Answered a, calls') →
  (0 < effective_ttl a)%N → calls' = S calls.
Proof.
  unfold Translate. intros Htr Hpos.
  repeat case_match; by simplify_eq.
Qed.

(** Under the policy, the answer to an AAAA question is never cacheable. *)
Lemma Translate_no_ipv6_uncacheable p rnd q qu calls a calls' :
  NoAAAA (p_opts p) = true → dns.Questions q = [qu] →
  dns.Qtype qu = dns.TypeAAAA →
  Translate p rnd q calls = (Answered a, calls') → effective_ttl a = 0%N.
Proof.
  intros Hno Hq Hty. rewrite (Translate_no_ipv6 _ _ _ qu) by done.
  by intros [= <- _].
Qed.

(** ** Between two queries *)

Lemma pipeline_inv_new h : pipeline_inv h (new_pipeline h).
Proof. repeat split; simpl; try done; by rewrite lookup_empty in *. Qed.

Lemma pipeline_inv_same_cache h st st' :
  ps_cache st' = ps_cache st → pipeline_inv h st → pipeline_inv h st'.
Proof. unfold pipeline_inv. by intros ->. Qed.

Lemma pipeline_preserves h now rnd q st :
  pipeline_inv h st → pipeline_inv h (pipeline h now rnd q st).2.
Proof.
  intros Hinv. unfold pipeline.
  destruct (dns.Questions q) as [|qu [|qu' rest]] eqn:Hq; [done| |done].
  set (fp := fingerprint (h_provider h) qu).
  destruct (cs_enabled (ps_cache st)) eqn:Hen;
    [|rewrite GetOrFetch_disabled by done; by eapply pipeline_inv_same_cache].
  destruct (Lookup fp now (ps_cache st)) as [a|] eqn:Hlook;
    [by rewrite (GetOrFetch_hit _ _ _ _ a)|].
  destruct Hinv as (Hcache & Hinfl & Hentries).
  rewrite GetOrFetch_miss by (try done; rewrite Hinfl; set_solver).
  unfold fetched.
  destruct (Translate (h_provider h) rnd q (ps_calls st)) as [[a|e] calls] eqn:Htr;
    simpl; [|done].
  split_and!; simpl; [by rewrite store_enabled|by rewrite store_inflight|].
  intros fp' e' He'. unfold store in He'.
  destruct (N.ltb_spec 0 (effective_ttl a)) as [Hpos|]; [|by apply Hentries].
  simpl in He'. destruct (decide (fp = fp')) as [<-|Hne].
  - rewrite lookup_insert_eq in He'. simplify_eq. split; [by split|].
    intros Hno Hty.
    pose proof (Translate_no_ipv6_uncacheable _ _ _ _ _ _ _ Hno Hq Hty Htr). lia.
  - rewrite lookup_insert_ne in He' by done. by apply Hentries.
Qed.

Lemma Handle_state h now rnd q st :
  (Handle h now rnd q st).2 = (pipeline h now rnd q st).2.
Proof. unfold Handle. by destruct (pipeline h now rnd q st) as [[a|e] st']. Qed.

Lemma serve_queries_inv h qs st :
  pipeline_inv h st → pipeline_inv h (serve_queries h qs st).
Proof.
  revert st. induction qs as [|[[now rnd] q] qs IH]; intros st Hinv; [done|].
  simpl. apply IH. rewrite Handle_state. by apply pipeline_preserves.
Qed.

(** What [main] puts into the handler it registers. *)
Lemma registered_handler_spec args h :
  registered_handler args = Some h →
  Cache (h_options h) = cacheFlag (parsed_flags args) ∧
  p_endpoint (h_provider h) = endpointFlag (parsed_flags args) ∧
  NoAAAA (p_opts (h_provider h)) = noAAAAFlag (parsed_flags args).
Proof.
  unfold registered_handler, parsed_flags, boot.
  destruct (@main_startup_cases design args)
    as [| | | |fs lvl ips p Hfs Hlvl Hips Hp]; simpl; try done.
  intros [= <-]. simpl.
  cbn in Hp. unfold design_NewDMProvider in Hp.
  repeat case_match; by simplify_eq.
Qed.

(** ** The claims on the pipeline *)

(** C2: when the pipeline of a query (fingerprint, cache, translator) fails,
    [Handle] returns a message all the same: the SERVFAIL answer to that
    query, with its transaction ID and its question section; the error goes
    no further. *)
Theorem Handle_servfail h now rnd q st e st' :
  pipeline h now rnd q st = (Failed e, st') →
  Handle h now rnd q st = (servfail q, st') ∧
  dns.Id (Handle h now rnd q st).1 = dns.Id q ∧
  dns.Questions (Handle h now rnd q st).1 = dns.Questions q ∧
  dns.Rcode (Handle h now rnd q st).1 = dns.RcodeServerFailure ∧
  dns.Response (Handle h now rnd q st).1 = true.
Proof. intros Hfail. unfold Handle. by rewrite Hfail. Qed.

(** C3: with [-cache] on, after any run of queries: if the first query for a
    fingerprint finds no valid entry and its answer has an effective TTL
    above 0, a second query with that fingerprint before the TTL has elapsed
    gets the same answer, the state is as the first query left it, and the
    two queries together cost one upstream call. *)
Theorem cached_answer_one_upstream_call args h qs now1 rnd1 q1 qu1 now2 rnd2 q2 qu2 a st1 :
  registered_handler args = Some h →
  cacheFlag (parsed_flags args) = true →
  dns.Questions q1 = [qu1] → dns.Questions q2 = [qu2] →
  fingerprint (h_provider h) qu1 = fingerprint (h_provider h) qu2 →
  Lookup (fingerprint (h_provider h) qu1) now1
    (ps_cache (serve_queries h qs (new_pipeline h))) = None →
  Handle h now1 rnd1 q1 (serve_queries h qs (new_pipeline h)) = (a, st1) →
  (0 < effective_ttl a)%N →
  (now1 ≤ now2)%N → (now2 < now1 + effective_ttl a)%N →
  Handle h now2 rnd2 q2 st1 = (a, st1) ∧
  ps_calls st1 = S (ps_calls (serve_queries h qs (new_pipeline h))).
Proof.
  intros Hreg Hcache Hq1 Hq2 Hfp Hmiss Hfirst Hpos Hle Hlt.
  destruct (registered_handler_spec _ _ Hreg) as (Hopt & _ & _).
  destruct (serve_queries_inv h qs _ (pipeline_inv_new h)) as (Hen & Hinfl & _).
  set (st := serve_queries h qs (new_pipeline h)) in *.
  assert (cs_enabled (ps_cache st) = true) as Hon by congruence.
  unfold Handle, pipeline in Hfirst. rewrite Hq1 in Hfirst.
  rewrite GetOrFetch_miss in Hfirst by (try done; rewrite Hinfl; set_solver).
  unfold fetched in Hfirst.
  destruct (Translate (h_provider h) rnd1 q1 (ps_calls st)) as [[a'|e] calls] eqn:Htr;
    simpl in Hfirst; injection Hfirst as <- <-;
    [|by rewrite effective_ttl_servfail in Hpos].
  split; [|by eapply Translate_cacheable].
  unfold Handle, pipeline. rewrite Hq2, <-Hfp.
  rewrite (GetOrFetch_hit _ _ _ _ a'); [done|].
  by apply Lookup_store.
Qed.

(** C4: after any run of queries, every entry of the cache holds an answer
    without error, with records, and its TTL is the minimum of their TTLs,
    above 0; a lookup at or after insertion time + TTL does not return it.
    And when a query that found no valid entry gets an error, an error
    response or an answer of effective TTL 0, the cache is left as it was
    and a later query with the same fingerprint runs the translator again. *)
Theorem cache_expiry_and_refetch h qs :
  (∀ fp e,
     cs_entries (ps_cache (serve_queries h qs (new_pipeline h))) !! fp = Some e →
     dns.Rcode (ce_answer e) = dns.RcodeSuccess ∧
     ce_ttl e = effective_ttl (ce_answer e) ∧ (0 < ce_ttl e)%N ∧
     (∀ r, r ∈ dns.Answer (ce_answer e) → (ce_ttl e ≤ dns.rr_ttl r)%N) ∧
     (∃ r, r ∈ dns.Answer (ce_answer e) ∧ ce_ttl e = dns.rr_ttl r) ∧
     ∀ now, (ce_inserted e + ce_ttl e ≤ now)%N →
       Lookup fp now (ps_cache (serve_queries h qs (new_pipeline h))) = None) ∧
  (∀ now1 rnd1 q1 qu1 r st1 now2 rnd2 q2 qu2,
     dns.Questions q1 = [qu1] → dns.Questions q2 = [qu2] →
     fingerprint (h_provider h) qu1 = fingerprint (h_provider h) qu2 →
     Lookup (fingerprint (h_provider h) qu1) now1
       (ps_cache (serve_queries h qs (new_pipeline h))) = None →
     pipeline h now1 rnd1 q1 (serve_queries h qs (new_pipeline h)) = (r, st1) →
     match r with
     | Answered a => effective_ttl a = 0%N
     | Failed _ => True
     end →
     (now1 ≤ now2)%N →
     ps_cache st1 = ps_cache (serve_queries h qs (new_pipeline h)) ∧
     (pipeline h now2 rnd2 q2 st1).1 = (Translate (h_provider h) rnd2 q2 (ps_calls st1)).1 ∧
     ps_calls (pipeline h now2 rnd2 q2 st1).2
       = (Translate (h_provider h) rnd2 q2 (ps_calls st1)).2).
Proof.
  pose proof (serve_queries_inv h qs _ (pipeline_inv_new h)) as Hinv.
  set (st := serve_queries h qs (new_pipeline h)) in *.
  destruct Hinv as (Hen & Hinfl & Hentries).
  split.
  - intros fp e He. destruct (Hentries _ _ He) as [[Httl Hpos] _].
    rewrite Httl in Hpos.
    destruct (effective_ttl_positive _ Hpos) as [Hrc _].
    destruct (effective_ttl_min _ Hpos) as [Hmin Hatt].
    rewrite Httl. split_and!; try done.
    intros now Hexp. apply Lookup_expired with e; [done|]. by rewrite Httl.
  - intros now1 rnd1 q1 qu1 r st1 now2 rnd2 q2 qu2 Hq1 Hq2 Hfp Hmiss Hfirst Hr Hle.
    set (fp := fingerprint (h_provider h) qu1) in *.
    assert (fp ∉ cs_inflight (ps_cache st)) as Hfree by (rewrite Hinfl; set_solver).
    unfold pipeline in Hfirst. rewrite Hq1 in Hfirst. fold fp in Hfirst.
    unfold pipeline. rewrite Hq2, <-Hfp. fold fp.
    destruct (cs_enabled (ps_cache st)) eqn:Hon.
    + rewrite GetOrFetch_miss in Hfirst by done. unfold fetched in Hfirst.
      assert (ps_cache st1 = ps_cache st) as Hsame.
      { destruct (Translate (h_provider h) rnd1 q1 (ps_calls st)) as [[a|e] calls];
          simpl in Hfirst; injection Hfirst as <- <-; simpl;
          [by apply store_uncacheable|done]. }
      split; [done|].
      rewrite GetOrFetch_miss; rewrite ?Hsame; try done.
      by apply Lookup_later with now1.
    + rewrite GetOrFetch_disabled in Hfirst by done.
      injection Hfirst as <- <-. simpl.
      split; [done|]. by rewrite GetOrFetch_disabled.
Qed.

(** C5: with [-no-ipv6] on, after any run of queries and whether [-cache] is
    on or off, the answer to a query whose question has type AAAA is the
    success answer with no record, to that query; the state of the pipeline
    is unchanged, so the counter of upstream calls does not move. *)
Theorem no_ipv6_answers_without_upstream args h qs now rnd q qu :
  registered_handler args = Some h →
  noAAAAFlag (parsed_flags args) = true →
  dns.Questions q = [qu] → dns.Qtype qu = dns.TypeAAAA →
  Handle h now rnd q (serve_queries h qs (new_pipeline h))
    = (empty_answer q, serve_queries h qs (new_pipeline h)) ∧
  dns.Rcode (Handle h now rnd q (serve_queries h qs (new_pipeline h))).1
    = dns.RcodeSuccess ∧
  dns.Answer (Handle h now rnd q (serve_queries h qs (new_pipeline h))).1 = [] ∧
  ps_calls (Handle h now rnd q (serve_queries h qs (new_pipeline h))).2
    = ps_calls (serve_queries h qs (new_pipeline h)).
Proof.
  intros Hreg Hflag Hq Hty.
  destruct (registered_handler_spec _ _ Hreg) as (_ & _ & Hno).
  rewrite Hflag in Hno.
  destruct (serve_queries_inv h qs _ (pipeline_inv_new h)) as (Hen & Hinfl & Hentries).
  set (st := serve_queries h qs (new_pipeline h)) in *.
  assert (Handle h now rnd q st = (empty_answer q, st)) as ->; [|done].
  unfold Handle, pipeline. rewrite Hq.
  set (fp := fingerprint (h_provider h) qu).
  destruct (cs_enabled (ps_cache st)) eqn:Hon.
  - assert (cs_entries (ps_cache st) !! fp = None) as Hnone.
    { destruct (cs_entries (ps_cache st) !! fp) as [e|] eqn:He; [|done].
      destruct (Hentries _ _ He) as [_ Hne]. by destruct (Hne Hno). }
    rewrite GetOrFetch_miss; try done.
    + rewrite (Translate_no_ipv6 _ _ _ qu) by done. unfold fetched. simpl.
      rewrite store_uncacheable by done. by destruct st.
    + unfold Lookup. by rewrite Hon, Hnone.
    + rewrite Hinfl. set_solver.
  - rewrite GetOrFetch_disabled by done.
    rewrite (Translate_no_ipv6 _ _ _ qu) by done. simpl. by destruct st.
Qed.

End pipeline_properties.

(** ** The program in the stubbed world *)

(** C1, as stated, fails: with both listeners serving, an error from the TCP
    listener ends the process; it does not leave UDP serving. *)
Lemma listener_failure_not_isolated :
  ¬ @listener_failure_isolated stub_package [] serving_schedule 0
      "accept tcp: too many open files".
Proof.
  intros Hclaim.
  destruct (Hclaim "tcp") as [Hstatus _]; [reflexivity..|].
  change (Exited 1 = Running) in Hstatus. discriminate Hstatus.
Qed.

Lemma listener_failure_exits_witness :
  st_status (step tcp_failure (@program stub_package [] serving_schedule)) = Exited 1.
Proof.
  apply (@listener_failure_exits stub_package [] serving_schedule 0 "tcp"
           "accept tcp: too many open files"); reflexivity.
Defined.

(** C6, on the code: both listeners serve, SIGINT arrives while [main] waits
    at line 221, [main] logs and returns, and the process exits with status
    0.  The two goroutines are still inside ListenAndServe and
    [server.Shutdown] was never called. *)
Theorem sigint_exits_without_shutdown :
  st_status (@program stub_package [] sigint_schedule) = Exited 0 ∧
  st_pool (@program stub_package [] sigint_schedule) = [GServing "tcp"; GServing "udp"] ∧
  st_trace (@program stub_package [] sigint_schedule) =
    [ EvPrintln ["log level: "; "info"]; EvHandleFunc ".";
      EvLog 105 InfoLevel "starting tcp service on :53";
      EvListenAndServe "tcp" ":53";
      EvLog 105 InfoLevel "starting udp service on :53";
      EvListenAndServe "udp" ":53";
      EvLog 223 InfoLevel "servers exited, stopping" ] ∧
  ∀ net, EvShutdown net ∉ st_trace (@program stub_package [] sigint_schedule).
Proof.
  split_and!; [reflexivity..|].
  intros net Hin.
  destruct (@shutdown_needs_nil_return stub_package [] sigint_schedule) as [_ Htr];
    [lazy; by repeat constructor|].
  rewrite Forall_forall in Htr. by specialize (Htr _ Hin).
Qed.

(** A start-up of the stubbed package either boots or exits. *)
Lemma dns_servers_branch_unreachable_witness :
  @main_startup stub_package [("endpoint-ips", "74.125.28.139,localhost")] =
    ([EvPrintln ["log level: "; "info"];
      EvLog 173 FatalLevel "error parsing endpoint-ips: invalid IP address: localhost"],
     Exit 1).
Proof.
  apply (proj2 (@dns_servers_branch_unreachable stub_package
                  [("endpoint-ips", "74.125.28.139,localhost")])
           (<["endpoint-ips" := VString "74.125.28.139,localhost"]> CommandLine)
           LInfo "invalid IP address: localhost");
    reflexivity.
Defined.

Lemma config_error_no_listener_witness :
  @config_error stub_package [("edns-subnet", "66.66.66.66/240")] ∧
  st_status (@program stub_package [("edns-subnet", "66.66.66.66/240")] serving_schedule)
    = Exited 1 ∧
  st_pool (@program stub_package [("edns-subnet", "66.66.66.66/240")] serving_schedule)
    = [].
Proof.
  assert (@config_error stub_package [("edns-subnet", "66.66.66.66/240")]) as Herr.
  { exists (<["edns-subnet" := VString "66.66.66.66/240"]> CommandLine).
    split; [reflexivity|]. right; right. eexists. reflexivity. }
  split; [exact Herr|].
  destruct (@config_error_no_listener stub_package _ Herr serving_schedule)
    as (Hstatus & Hpool & _).
  by split.
Defined.

Lemma default_endpoint_witness :
  match @main_startup stub_package [("tcp", "false")] with
  | (_, Continue b) => b_ep b = "https://dns.google/dns-query"
  | (_, Exit _) => False
  end.
Proof.
  destruct (@main_startup stub_package [("tcp", "false")]) as [tr [b|code]] eqn:Hrun.
  - refine (proj1 (@default_endpoint stub_package [("tcp", "false")] tr b _ Hrun)).
    intros v Hin. by apply list_elem_of_singleton in Hin.
  - pose proof (f_equal (λ r, match r.2 with Continue _ => true | Exit _ => false end)
                  Hrun) as Hboots.
    change (true = false) in Hboots. discriminate Hboots.
Defined.

Lemma handoff_one_listener_per_transport_witness :
  match @main_startup stub_package [("udp", "0")] with
  | (_, Continue b) =>
      listenNet_of <$> st_pool (@program stub_package [("udp", "0")] serving_schedule)
        = Some <$> b_protocols b
  | (_, Exit _) => False
  end.
Proof.
  destruct (@main_startup stub_package [("udp", "0")]) as [tr [b|code]] eqn:Hrun.
  - destruct (@handoff_one_listener_per_transport stub_package _ tr b Hrun)
      as (_ & _ & Hdone & _).
    apply (Hdone serving_schedule). reflexivity.
  - pose proof (f_equal (λ r, match r.2 with Continue _ => true | Exit _ => false end)
                  Hrun) as Hboots.
    change (true = false) in Hboots. discriminate Hboots.
Defined.

(** ** The pipeline in the stubbed world *)

#[local] Existing Instance stub_world.

Lemma Handle_servfail_witness :
  Handle stub_handler 1000 0 two_questions (new_pipeline stub_handler)
    = (servfail two_questions, new_pipeline stub_handler).
Proof.
  apply (Handle_servfail stub_handler 1000 0 two_questions
           (new_pipeline stub_handler) UnsupportedQueryError
           (new_pipeline stub_handler)).
  reflexivity.
Defined.

Lemma cached_answer_one_upstream_call_witness :
  Handle stub_handler 1299 1 (query 8 "EXAMPLE.com." dns.TypeA)
    (Handle stub_handler 1000 0 (query 7 "example.com." dns.TypeA)
       (new_pipeline stub_handler)).2
  = Handle stub_handler 1000 0 (query 7 "example.com." dns.TypeA)
      (new_pipeline stub_handler) ∧
  ps_calls (Handle stub_handler 1000 0 (query 7 "example.com." dns.TypeA)
              (new_pipeline stub_handler)).2 = 1.
Proof.
  apply (cached_answer_one_upstream_call [] stub_handler []
           1000%N 0 (query 7 "example.com." dns.TypeA)
           {| dns.Name := "example.com."; dns.Qtype := dns.TypeA;
              dns.Qclass := dns.ClassINET |}
           1299%N 1 (query 8 "EXAMPLE.com." dns.TypeA)
           {| dns.Name := "EXAMPLE.com."; dns.Qtype := dns.TypeA;
              dns.Qclass := dns.ClassINET |});
    try reflexivity; lia.
Defined.

Lemma cache_expiry_and_refetch_witness :
  ps_calls (pipeline stub_handler 1001 1 (query 4 "nosuch.example." dns.TypeA)
              (pipeline stub_handler 1000 0 (query 3 "NoSuch.example." dns.TypeA)
                 (new_pipeline stub_handler)).2).2 = 2.
Proof.
  refine (eq_trans
    (proj2 (proj2 (proj2 (cache_expiry_and_refetch stub_handler [])
       1000%N 0 (query 3 "NoSuch.example." dns.TypeA)
       {| dns.Name := "NoSuch.example."; dns.Qtype := dns.TypeA;
          dns.Qclass := dns.ClassINET |}
       (pipeline stub_handler 1000 0 (query 3 "NoSuch.example." dns.TypeA)
          (new_pipeline stub_handler)).1
       (pipeline stub_handler 1000 0 (query 3 "NoSuch.example." dns.TypeA)
          (new_pipeline stub_handler)).2
       1001%N 1 (query 4 "nosuch.example." dns.TypeA)
       {| dns.Name := "nosuch.example."; dns.Qtype := dns.TypeA;
          dns.Qclass := dns.ClassINET |}
       _ _ _ _ _ _ _))) _); try reflexivity. lia.
Defined.

Lemma no_ipv6_answers_without_upstream_witness :
  Handle no_ipv6_handler 1001 1 (query 5 "example.com." dns.TypeAAAA)
    (serve_queries no_ipv6_handler [(1000%N, 0, query 6 "example.com." dns.TypeA)]
       (new_pipeline no_ipv6_handler))
  = (empty_answer (query 5 "example.com." dns.TypeAAAA),
     serve_queries no_ipv6_handler [(1000%N, 0, query 6 "example.com." dns.TypeA)]
       (new_pipeline no_ipv6_handler)).
Proof.
  apply (no_ipv6_answers_without_upstream [("no-ipv6", "true")] no_ipv6_handler
           [(1000%N, 0, query 6 "example.com." dns.TypeA)] 1001%N 1
           (query 5 "example.com." dns.TypeAAAA)
           {| dns.Name := "example.com."; dns.Qtype := dns.TypeAAAA;
              dns.Qclass := dns.ClassINET |});
    reflexivity.
Defined.

(** * More of [main.go] *)

Section more_of_main.
Context `{Collaborators}.

(** ** The command line (lines 29-101, 121-141) *)

Lemma flag_Parse_app args1 args2 fs :
  flag_Parse (args1 ++ args2) fs = res_bind (flag_Parse args1 fs) (flag_Parse args2).
Proof.
  revert fs. induction args1 as [|[name value] args1 IH]; intros fs; simpl; [done|].
  destruct (flag_Set name value fs) as [fs1|e]; simpl; [apply IH|done].
Qed.

Lemma same_kind_refl v : same_kind v v.
Proof. by destruct v as [[]|]. Qed.

Lemma same_kind_trans u v w : same_kind u v → same_kind v w → same_kind u w.
Proof. by destruct u as [[]|], v as [[]|], w as [[]|]. Qed.

(** Setting a flag never changes the kind of any flag. *)
Lemma flag_Set_kind name value fs fs' n :
  flag_Set name value fs = Ok fs' → same_kind (fs !! n) (fs' !! n).
Proof.
  unfold flag_Set. destruct (fs !! name) as [v|] eqn:Hv; [|done].
  destruct (Value_Set v value) as [v'|] eqn:Hset; simpl; [|done].
  intros [= <-]. destruct (decide (name = n)) as [<-|Hne].
  - rewrite lookup_insert_eq, Hv.
    destruct v; simpl in Hset.
    + injection Hset as <-. exact I.
    + destruct (ParseBool value); simpl in Hset; [|done]. injection Hset as <-. exact I.
    + destruct (KeyValue_Set value kv); simpl in Hset; [|done].
      injection Hset as <-. exact I.
  - rewrite lookup_insert_ne by done. apply same_kind_refl.
Qed.

Lemma flag_Parse_kind args fs fs' n :
  flag_Parse args fs = Ok fs' → same_kind (fs !! n) (fs' !! n).
Proof.
  revert fs. induction args as [|[name value] args IH]; intros fs; simpl.
  - intros [= ->]. apply same_kind_refl.
  - destruct (flag_Set name value fs) as [fs1|] eqn:Hset; simpl; [|done].
    intros Hparse. eapply same_kind_trans; [by eapply flag_Set_kind|by apply IH].
Qed.

(** X1: in every command line that parses, a flag the command line does
    not name has the default it was registered with. *)
Theorem unset_flags_keep_defaults args fs :
  flag_Parse args CommandLine = Ok fs →
  ((∀ v, ("listen", v) ∉ args) → listenAddressFlag fs = ":53") ∧
  ((∀ v, ("loglevel", v) ∉ args) → logLevelFlag fs = "info") ∧
  ((∀ v, ("google", v) ∉ args) → googleFlag fs = false) ∧
  ((∀ v, ("endpoint", v) ∉ args) → endpointFlag fs = gdnsEndpoint) ∧
  ((∀ v, ("endpoint-ips", v) ∉ args) → endpointIPsFlag fs = "") ∧
  ((∀ v, ("edns-subnet", v) ∉ args) → ednsSubnetFlag fs = "auto") ∧
  ((∀ v, ("cache", v) ∉ args) → cacheFlag fs = true) ∧
  ((∀ v, ("tcp", v) ∉ args) → enableTCPFlag fs = true) ∧
  ((∀ v, ("udp", v) ∉ args) → enableUDPFlag fs = true) ∧
  ((∀ v, ("http2", v) ∉ args) → http2Flag fs = false) ∧
  ((∀ v, ("cacert", v) ∉ args) → cacertFlag fs = "") ∧
  ((∀ v, ("no-ipv6", v) ∉ args) → noAAAAFlag fs = false) ∧
  ((∀ v, ("dns-resolver", v) ∉ args) → dnsResolverFlag fs = "") ∧
  ((∀ v, ("headers", v) ∉ args) → headersFlag fs = ∅) ∧
  ((∀ v, ("param", v) ∉ args) → queryParameters fs = ∅).
Proof.
  intros Hfs.
  pose proof (λ n, flag_Parse_other args CommandLine fs n Hfs) as Hkeep.
  unfold listenAddressFlag, logLevelFlag, googleFlag, endpointFlag, endpointIPsFlag,
    ednsSubnetFlag, cacheFlag, enableTCPFlag, enableUDPFlag, http2Flag, cacertFlag,
    noAAAAFlag, dnsResolverFlag, headersFlag, queryParameters,
    flag_string, flag_bool, flag_keyvalue.
  split_and!; intros Hunset; by rewrite (Hkeep _ Hunset).
Qed.

(** X2: when a flag is given several times, the last setting decides: a
    string flag holds the last value as it is, a toggle the boolean its last
    value parses to. *)
Theorem last_setting_wins args1 name v args2 fs :
  flag_Parse (args1 ++ (name, v) :: args2) CommandLine = Ok fs →
  (∀ v', (name, v') ∉ args2) →
  match CommandLine !! name with
  | Some (VString _) => fs !! name = Some (VString v)
  | Some (VBool _) => ∃ b, ParseBool v = Ok b ∧ fs !! name = Some (VBool b)
  | Some (VKeyValue _) => ∃ kv, fs !! name = Some (VKeyValue kv)
  | None => False
  end.
Proof.
  rewrite flag_Parse_app. intros Hparse Hlast.
  destruct (flag_Parse args1 CommandLine) as [fs1|] eqn:H1; [|discriminate Hparse].
  change (res_bind (flag_Set name v fs1) (flag_Parse args2) = Ok fs) in Hparse.
  destruct (flag_Set name v fs1) as [fs2|] eqn:H2; [|discriminate Hparse].
  change (flag_Parse args2 fs2 = Ok fs) in Hparse.
  rewrite (flag_Parse_other _ _ _ _ Hparse Hlast).
  pose proof (flag_Parse_kind _ _ _ name H1) as Hkind.
  unfold flag_Set in H2.
  destruct (CommandLine !! name) as [[d|d|d]|], (fs1 !! name) as [[s|b|kv]|];
    simpl in *; try done.
  - injection H2 as <-. by rewrite lookup_insert_eq.
  - destruct (ParseBool v) as [b'|]; simpl in H2; [|done].
    injection H2 as <-. exists b'. by rewrite lookup_insert_eq.
  - destruct (KeyValue_Set v kv) as [kv'|]; simpl in H2; [|done].
    injection H2 as <-. exists kv'. by rewrite lookup_insert_eq.
Qed.



End more_of_main.

Section exits.
Context `{Collaborators}.

(** ** How the process ends (lines 109-111, 147-150, 171-177, 192-195, 219-223) *)

Lemma serve_not_fatal addr closed ga g g' evs :
  serve addr closed ga g = Some (g', evs, None) →
  Forall (λ e, is_fatal e = false) evs.
Proof.
  intros Hserve.
  destruct g, ga as [|[e|]|[e|]]; simpl in Hserve; try case_match; simplify_eq;
    by repeat constructor.
Qed.

Lemma serve_fatal addr closed ga g g' evs code :
  serve addr closed ga g = Some (g', evs, Some code) →
  code = 1%Z ∧ ∃ e, evs = [e] ∧ is_fatal e = true.
Proof.
  intros Hserve.
  destruct g, ga as [|[e|]|[e|]]; simpl in Hserve; try case_match; simplify_eq.
  split; [done|]. by eexists.
Qed.

(** While the process runs nothing fatal has been logged; when it has
    exited with status 1 the last event is a fatal entry, the only one. *)
Lemma fatal_inv args sched :
  match st_status (program args sched) with
  | Exited 1 =>
      ∃ tr e, st_trace (program args sched) = tr ++ [e] ∧ is_fatal e = true ∧
              Forall (λ e, is_fatal e = false) tr
  | _ => Forall (λ e, is_fatal e = false) (st_trace (program args sched))
  end.
Proof.
  unfold program. induction sched as [|a sched IH] using rev_ind.
  - simpl. unfold boot.
    destruct (main_startup_cases args); simpl; try by repeat constructor.
    + by exists [], (EvLog 149 FatalLevel ("invalid log level: " +:+ e)).
    + eexists [_], _. split; [done|]. by repeat constructor.
    + eexists [_], _. split; [done|]. by repeat constructor.
  - rewrite exec_snoc. generalize dependent (exec sched (boot args)). intros s IH.
    unfold step. destruct (st_status s) eqn:Hst; rewrite ?Hst; try done.
    destruct a as [|i|i ga|sg].
    + unfold main_step. destruct (st_main s) as [[|p rest]|p rest| | | | | |];
        simpl; rewrite ?Hst, ?Forall_app; try done.
      split; [done|]. by repeat constructor.
    + unfold send_step. destruct (st_main s); simpl; rewrite ?Hst; try done.
      destruct (st_pool s !! i) as [[]|]; simpl; by rewrite ?Hst.
    + unfold goroutine_step. destruct (st_pool s !! i) as [g|]; [|by rewrite Hst].
      destruct (serve _ _ ga g) as [[[g' evs] [code|]]|] eqn:Hserve;
        [| |by rewrite Hst].
      * destruct (serve_fatal _ _ _ _ _ _ _ Hserve) as (-> & e & -> & He).
        simpl. by exists (st_trace s), e.
      * simpl. rewrite Hst, Forall_app. split; [done|]. by eapply serve_not_fatal.
    + unfold signal_step. destruct (st_main s); simpl; by rewrite ?Hst.
Qed.

(** X5: the process exits with status 1 exactly when a fatal entry has been
    logged: [log.Fatalf] and [log.Fatal] are the only exits with status 1,
    and no run goes on after one. *)
Theorem exit_one_iff_fatal_entry args sched :
  st_status (program args sched) = Exited 1 ↔
  ∃ e, e ∈ st_trace (program args sched) ∧ is_fatal e = true.
Proof.
  pose proof (fatal_inv args sched) as Hinv. split.
  - intros Hst. rewrite Hst in Hinv. destruct Hinv as (tr & e & Htr & He & _).
    exists e. split; [|done]. rewrite Htr. set_solver.
  - intros (e & Hin & He).
    assert (¬ Forall (λ e, is_fatal e = false) (st_trace (program args sched)))
      as Hno.
    { intros Hall. rewrite Forall_forall in Hall. specialize (Hall _ Hin). congruence. }
    by destruct (st_status (program args sched)) as [|[|[| |]|]|].
Qed.

(** Once [main] has booted: status 2 does not occur, status 0 needs [main]
    to have returned, a state of [main] past line 221 needs a signal in the
    schedule, and past line 223 the exit is logged. *)
Lemma exit_inv args tr b sched :
  main_startup args = (tr, Continue b) →
  (∀ c, st_status (program args sched) = Exited c → c = 0%Z ∨ c = 1%Z) ∧
  (st_status (program args sched) = Exited 0 →
     st_main (program args sched) = MDone) ∧
  (signalled (st_main (program args sched)) = true →
     ∃ sg, ActSignal sg ∈ sched) ∧
  (exit_logged (st_main (program args sched)) = true →
     EvLog 223 InfoLevel "servers exited, stopping" ∈ st_trace (program args sched)).
Proof.
  intros Hrun. unfold program. rewrite (boot_booted _ _ _ Hrun).
  induction sched as [|a sched IH] using rev_ind; [by repeat split|].
  rewrite exec_snoc.
  generalize dependent (exec sched
    {| st_status := Running; st_flags := b_flags b; st_handler := Some (b_handler b);
       st_main := MLoop (b_protocols b); st_pool := []; st_closed := false;
       st_trace := tr |}).
  intros s (Hcodes & Hzero & Hsig & Hlog).
  assert (∀ sg, ActSignal sg ∈ sched → ∃ sg, ActSignal sg ∈ sched ++ [a]) as Hkeep.
  { intros sg Hsg. exists sg. apply elem_of_app. by left. }
  assert (signalled (st_main s) = true → ∃ sg, ActSignal sg ∈ sched ++ [a]) as Hsig'.
  { intros Hm. destruct (Hsig Hm) as [sg Hsg]. by eapply Hkeep. }
  assert (st_status s = Running ∨ st_status s ≠ Running) as [Hst|Hst]
    by (destruct (st_status s); [by left|by right..]);
    [|rewrite step_frozen by done; by repeat split; auto].
  unfold step. rewrite Hst.
  destruct a as [|i|i ga|sg].
  - unfold main_step. destruct (st_main s) as [[|p rest]|p rest| | | | | |] eqn:Hm;
      simpl; rewrite ?Hst, ?Hm; repeat split; try done; try (by intros [=]);
      try (by intros; left; eauto); auto.
    + intros _. apply elem_of_app. right. by apply list_elem_of_singleton.
    + intros c [= <-]. by left.
  - unfold send_step. destruct (st_main s) eqn:Hm; simpl; rewrite ?Hst, ?Hm;
      try (by repeat split; auto).
    destruct (st_pool s !! i) as [[]|]; simpl; rewrite ?Hst, ?Hm;
      by repeat split; auto.
  - unfold goroutine_step. destruct (st_pool s !! i) as [g|];
      [|by rewrite Hst; repeat split; auto].
    destruct (serve _ _ ga g) as [[[g' evs] [code|]]|] eqn:Hserve;
      [| |by rewrite Hst; repeat split; auto].
    + destruct (serve_fatal _ _ _ _ _ _ _ Hserve) as (-> & e & -> & He).
      simpl. split_and!.
      * intros c [= <-]. by right.
      * by intros [=].
      * exact Hsig'.
      * intros Hm. apply elem_of_app. left. by apply Hlog.
    + simpl. rewrite Hst. split_and!.
      * by intros c [=].
      * by intros [=].
      * exact Hsig'.
      * intros Hm. apply elem_of_app. left. by apply Hlog.
  - unfold signal_step. destruct (st_main s) eqn:Hm; simpl; rewrite ?Hst, ?Hm;
      repeat split; try done; auto;
      intros _; exists sg; apply elem_of_app; right; by apply list_elem_of_singleton.
Qed.

(** X4: on a command line that does not ask for help ([-h], [-help]) the
    process exits with status 0, 1 or 2 only; with status 2 exactly when the
    command line does not parse; and with status 0 only when a signal was
    delivered and [main] has logged "servers exited, stopping". *)
Theorem exit_status_cases args sched c :
  (∀ w, ("h", w) ∉ args) → (∀ w, ("help", w) ∉ args) →
  st_status (program args sched) = Exited c →
  (c = 0%Z ∨ c = 1%Z ∨ c = 2%Z) ∧
  (c = 2%Z ↔ is_Some (res_err (flag_Parse args CommandLine))) ∧
  (c = 0%Z →
     (∃ sg, ActSignal sg ∈ sched) ∧
     EvLog 223 InfoLevel "servers exited, stopping" ∈ st_trace (program args sched)).
Proof.
  intros _ _ Hst.
  destruct (main_startup args) as [tr [b|code]] eqn:Hrun.
  - destruct (exit_inv args tr b sched Hrun) as (Hcodes & Hzero & Hsig & Hlog).
    assert (flag_Parse args CommandLine = Ok (b_flags b)) as Hfs.
    { destruct (main_startup_cases args); by simplify_eq. }
    destruct (Hcodes c Hst) as [->| ->].
    + split_and!; [by left| |].
      * rewrite Hfs. split; [done|]. by intros [? [=]].
      * intros _. specialize (Hzero Hst).
        split; [apply Hsig|apply Hlog]; by rewrite Hzero.
    + split_and!; [by right; left| |done].
      rewrite Hfs. split; [done|]. by intros [? [=]].
  - unfold program in Hst. rewrite (boot_exit _ _ _ Hrun), exec_frozen in Hst by done.
    simpl in Hst. injection Hst as ->.
    destruct (main_startup_cases args) as [e Hfs|fs e Hfs|fs lvl e Hfs|fs lvl ips e Hfs|];
      simplify_eq.
    + split_and!; [by right; right| |done]. rewrite Hfs. split; [by eexists|done].
    + split_and!; [by right; left| |done]. rewrite Hfs. split; [done|by intros [? [=]]].
    + split_and!; [by right; left| |done]. rewrite Hfs. split; [done|by intros [? [=]]].
    + split_and!; [by right; left| |done]. rewrite Hfs. split; [done|by intros [? [=]]].
Qed.

(** X7: [server.Shutdown] is called only for a listener whose
    ListenAndServe has returned nil: no signal, and no move of [main], leads
    to it. *)
Theorem shutdown_only_after_nil_return args sched net :
  EvShutdown net ∈ st_trace (program args sched) →
  ∃ i, ActServe i (ListenReturns None) ∈ sched.
Proof.
  intros Hin.
  destruct (decide (Forall (λ a, returns_nil a = false) sched)) as [Hall|Hex].
  - destruct (shutdown_needs_nil_return args sched Hall) as [_ Htr].
    rewrite Forall_forall in Htr. by specialize (Htr _ Hin).
  - apply not_Forall_Exists in Hex; [|apply _].
    apply Exists_exists in Hex as (a & Ha & Hnil).
    destruct a as [|i|i [|[e|]|err]|sg]; try (by destruct Hnil).
    by exists i.
Qed.

(** X10: when [main] waits at line 221, a signal and the three moves of
    [main] that follow end the process with status 0: the exit is logged,
    and every goroutine is left at the point where it was. *)
Theorem signal_ends_process args sched sg :
  st_status (program args sched) = Running →
  st_main (program args sched) = MWaitSig →
  st_status (program args (sched ++ [ActSignal sg; ActMain; ActMain; ActMain]))
    = Exited 0 ∧
  st_pool (program args (sched ++ [ActSignal sg; ActMain; ActMain; ActMain]))
    = st_pool (program args sched) ∧
  st_trace (program args (sched ++ [ActSignal sg; ActMain; ActMain; ActMain]))
    = st_trace (program args sched) ++ [EvLog 223 InfoLevel "servers exited, stopping"].
Proof.
  unfold program. rewrite exec_app.
  generalize (exec sched (boot args)). intros s Hst Hm.
  assert (exec [ActSignal sg; ActMain; ActMain; ActMain] s =
          set_main MDone (set_status (Exited 0)
            (set_main MReturn (set_closed true
               (set_main MClose
                  (record [EvLog 223 InfoLevel "servers exited, stopping"]
                     (set_main MLogExit s))))))) as ->; [|by repeat split].
  cbn [exec fold_left].
  assert (step (ActSignal sg) s = set_main MLogExit s) as ->
    by (unfold step, signal_step; by rewrite Hst, Hm).
  rewrite (step_main (set_main MLogExit s)) by done.
  unfold main_step. cbn [st_main set_main].
  rewrite (step_main (set_main MClose _)) by done.
  unfold main_step. cbn [st_main set_main].
  rewrite (step_main (set_main MReturn _)) by done.
  by unfold main_step.
Qed.

End exits.

Section listeners.
Context `{Collaborators}.

(** ** What is listened on (lines 105-109, 199-216) *)

Lemma step_flags a s : st_flags (step a s) = st_flags s.
Proof.
  unfold step. destruct (st_status s); [|done..].
  destruct a as [|i|i ga|sg].
  - unfold main_step. by repeat case_match.
  - unfold send_step. by repeat case_match.
  - unfold goroutine_step. repeat case_match; try done.
    all: by destruct o.
  - unfold signal_step. by repeat case_match.
Qed.

Lemma exec_flags sched s : st_flags (exec sched s) = st_flags s.
Proof.
  revert s. induction sched as [|a sched IH]; intros s; [done|].
  simpl. by rewrite IH, step_flags.
Qed.

Lemma listened_app tr1 tr2 : listened (tr1 ++ tr2) = listened tr1 ++ listened tr2.
Proof. apply omap_app. Qed.

(** One move of [serve] either is no call of ListenAndServe, or is the call
    for the goroutine's transport on the configured address. *)
Lemma serve_listened addr closed ga g g' evs code :
  serve addr closed ga g = Some (g', evs, code) →
  (called g' = called g ∧ listened evs = []) ∨
  (called g = None ∧ ∃ p, called g' = Some p ∧ evs = [EvListenAndServe p addr]).
Proof.
  intros Hserve.
  destruct g, ga as [|[e|]|[e|]]; simpl in Hserve; try case_match; simplify_eq;
    try (by left).
  right. split; [done|]. by eexists.
Qed.

Lemma omap_called_insert_same (pool : list gstate) (i : nat) g g' :
  pool !! i = Some g → called g' = called g →
  omap called (<[i := g']> pool) = omap called pool.
Proof.
  intros Hi Heq.
  rewrite insert_take_drop by by eapply lookup_lt_Some.
  rewrite <-(take_drop_middle pool i g) at 3 by done.
  rewrite !omap_app. simpl. by rewrite Heq.
Qed.

Lemma omap_called_insert_new (pool : list gstate) (i : nat) g g' p :
  pool !! i = Some g → called g = None → called g' = Some p →
  omap called (<[i := g']> pool) ≡ₚ omap called pool ++ [p].
Proof.
  intros Hi Hg Hg'.
  rewrite insert_take_drop by by eapply lookup_lt_Some.
  rewrite <-(take_drop_middle pool i g) at 3 by done.
  rewrite !omap_app. simpl. rewrite Hg, Hg'.
  rewrite <-app_assoc. f_equiv. by rewrite Permutation_cons_append.
Qed.

(** The calls of ListenAndServe in the trace are those of the goroutines
    that are past line 109, and all of them are on the [-listen] address. *)
Lemma listened_inv args sched :
  listened (st_trace (program args sched)) ≡ₚ omap called (st_pool (program args sched)) ∧
  ∀ net addr, EvListenAndServe net addr ∈ st_trace (program args sched) →
    addr = listenAddressFlag (st_flags (program args sched)).
Proof.
  unfold program. induction sched as [|a sched IH] using rev_ind.
  - simpl. rewrite boot_pool, boot_trace.
    destruct (main_startup_cases args); simpl; split; try done;
      intros net addr Hin; repeat (apply elem_of_cons in Hin as [?|Hin]; [done|]);
      by apply elem_of_nil in Hin.
  - rewrite exec_snoc, step_flags.
    generalize dependent (exec sched (boot args)). intros s [Hperm Haddr].
    unfold step. destruct (st_status s); [|done..].
    destruct a as [|i|i ga|sg].
    + unfold main_step. destruct (st_main s) as [[|p rest]|p rest| | | | | |];
        simpl; rewrite ?listened_app, ?omap_app, ?app_nil_r; try done.
      split; [done|]. intros net addr [Hin|Hin%list_elem_of_singleton]%elem_of_app;
        [by eapply Haddr|done].
    + unfold send_step. destruct (st_main s); try done.
      destruct (st_pool s !! i) as [[]|] eqn:Hi; try done. simpl.
      split; [|done]. by rewrite (omap_called_insert_same _ _ GRecv).
    + unfold goroutine_step. destruct (st_pool s !! i) as [g|] eqn:Hi; [|done].
      destruct (serve _ _ ga g) as [[[g' evs] code]|] eqn:Hserve; [|done].
      assert (st_trace (exit_with code (set_goroutine i g' (record evs s)))
              = st_trace s ++ evs) as -> by by destruct code.
      assert (st_pool (exit_with code (set_goroutine i g' (record evs s)))
              = <[i := g']> (st_pool s)) as -> by by destruct code.
      rewrite listened_app.
      destruct (serve_listened _ _ _ _ _ _ _ Hserve)
        as [[Hsame Hnone]|(Hnew & p & Hp & ->)].
      * rewrite Hnone, app_nil_r, (omap_called_insert_same _ _ g) by done.
        split; [done|].
        intros net addr [Hin|Hin]%elem_of_app; [by eapply Haddr|].
        assert (net ∈ listened evs) as Hl
          by (apply list_elem_of_omap; by exists (EvListenAndServe net addr)).
        rewrite Hnone in Hl. by apply elem_of_nil in Hl.
      * rewrite (omap_called_insert_new _ _ g g' p) by done. simpl.
        split; [by f_equiv|].
        intros net addr [Hin|Hin%list_elem_of_singleton]%elem_of_app;
          [by eapply Haddr|by simplify_eq].
    + unfold signal_step. by destruct (st_main s).
Qed.

(** Transports at a goroutine's index: no transport is held twice. *)
Lemma omap_NoDup_by_index (f : gstate → option string) (pool : list gstate)
    (l : list string) :
  (∀ (i : nat) g p, pool !! i = Some g → f g = Some p → l !! i = Some p) →
  NoDup l →
  NoDup (omap f pool) ∧ ∀ p, p ∈ omap f pool → p ∈ l.
Proof.
  revert l. induction pool as [|g pool IH]; intros l Hidx Hnd.
  - split; [constructor|]. by intros p ?%elem_of_nil.
  - destruct (IH (tail l)) as [IHnd IHin].
    { intros i g' p Hi Hf. specialize (Hidx (S i) g' p Hi Hf).
      by destruct l. }
    { destruct l; [done|]. by apply NoDup_cons in Hnd as [_ ?]. }
    simpl. destruct (f g) as [p|] eqn:Hfg.
    + pose proof (Hidx 0 g p eq_refl Hfg) as H0.
      destruct l as [|x l]; [done|]. simpl in *. injection H0 as ->.
      apply NoDup_cons in Hnd as [Hnotin Hnd]. split.
      * apply NoDup_cons. split; [|done]. intros Hin. by apply Hnotin, IHin.
      * intros q [->|Hin]%elem_of_cons; [by left|]. right. by apply IHin.
    + split; [done|]. intros q Hin. specialize (IHin q Hin).
      destruct l; [by apply elem_of_nil in IHin|]. by right.
Qed.

Lemma enabled_protocols_NoDup fs : NoDup (enabled_protocols fs).
Proof.
  unfold enabled_protocols.
  destruct (enableTCPFlag fs), (enableUDPFlag fs); simpl;
    repeat (apply NoDup_cons; split; [set_solver|]); constructor.
Qed.

Lemma called_listenNet g p : called g = Some p → g ≠ GRecv ∧ listenNet_of g = Some p.
Proof. by destruct g. Qed.

(** X6: under every schedule ListenAndServe is called at most once per
    transport, only for a transport whose toggle is on, and only on the
    address of [-listen]. *)
Theorem listen_once_per_enabled_transport args sched :
  NoDup (listened (st_trace (program args sched))) ∧
  (∀ net, net ∈ listened (st_trace (program args sched)) →
     (net = "tcp" ∧ enableTCPFlag (st_flags (program args sched)) = true) ∨
     (net = "udp" ∧ enableUDPFlag (st_flags (program args sched)) = true)) ∧
  (∀ net addr, EvListenAndServe net addr ∈ st_trace (program args sched) →
     addr = listenAddressFlag (st_flags (program args sched))).
Proof.
  destruct (listened_inv args sched) as [Hperm Haddr].
  assert (NoDup (listened (st_trace (program args sched))) ∧
          ∀ net, net ∈ listened (st_trace (program args sched)) →
                 net ∈ enabled_protocols (st_flags (program args sched)))
    as [Hnd Hin].
  { setoid_rewrite Hperm.
    destruct (main_startup args) as [tr [b|code]] eqn:Hrun.
    - assert (b_protocols b = enabled_protocols (b_flags b)) as Hprotos
        by (destruct (main_startup_cases args); by simplify_eq).
      assert (st_flags (program args sched) = b_flags b) as ->
        by (unfold program; by rewrite exec_flags, (boot_booted _ _ _ Hrun)).
      apply omap_NoDup_by_index; [|apply enabled_protocols_NoDup].
      intros i g p Hi [Hg Hp]%called_listenNet.
      pose proof (exec_handoff_inv _ sched _ (boot_handoff_inv _ _ _ Hrun)) as Hinv.
      destruct (handoff_inv_lookup _ _ _ _ Hinv Hi Hg) as (q & Hq & Hl).
      rewrite <-Hprotos. congruence.
    - unfold program. rewrite (boot_exit _ _ _ Hrun), exec_frozen by done. simpl.
      split; [constructor|]. by intros net ?%elem_of_nil. }
  split_and!; [done| |done].
  intros net Hnet. specialize (Hin net Hnet). unfold enabled_protocols in Hin.
  destruct (enableTCPFlag _), (enableUDPFlag _); set_solver.
Qed.

(** X9: at no time are there more [serve] goroutines than transports
    whose toggle is on: at most two, and none with [-tcp] and [-udp] off. *)
Theorem pool_bounded args sched :
  (length (st_pool (program args sched)) ≤
     (if enableTCPFlag (st_flags (program args sched)) then 1 else 0) +
     (if enableUDPFlag (st_flags (program args sched)) then 1 else 0))%nat.
Proof.
  destruct (main_startup args) as [tr [b|code]] eqn:Hrun.
  - assert (b_protocols b = enabled_protocols (b_flags b)) as Hprotos
      by (destruct (main_startup_cases args); by simplify_eq).
    assert (st_flags (program args sched) = b_flags b) as ->
      by (unfold program; by rewrite exec_flags, (boot_booted _ _ _ Hrun)).
    pose proof (exec_handoff_inv _ sched _ (boot_handoff_inv _ _ _ Hrun)) as Hinv.
    fold (program args sched) in Hinv.
    assert (length (st_pool (program args sched)) ≤ length (b_protocols b))%nat as Hle.
    { unfold handoff_inv, handoff_rel in Hinv.
      rewrite <-(length_fmap listenNet_of).
      destruct (st_main (program args sched));
        try (rewrite Hinv, length_fmap; lia);
        destruct Hinv as (given & -> & -> & _);
        rewrite ?length_app, !length_fmap; simpl; lia. }
    rewrite Hprotos in Hle. unfold enabled_protocols in Hle.
    destruct (enableTCPFlag _), (enableUDPFlag _); simpl in *; lia.
  - unfold program. rewrite (boot_exit _ _ _ Hrun), exec_frozen by done.
    cbn [st_pool length]. lia.
Qed.

(** The events of the sequential part come first; the later ones are
    neither [dns.HandleFunc] nor from the sequential part. *)
Lemma trace_startup_first args sched :
  ∃ rest,
    st_trace (program args sched) = (main_startup args).1 ++ rest ∧
    Forall (λ e, ∀ pat, e ≠ EvHandleFunc pat) rest ∧
    (rest ≠ [] → ∃ b, (main_startup args).2 = Continue b).
Proof.
  unfold program. induction sched as [|a sched IH] using rev_ind.
  - exists []. cbn [exec fold_left]. by rewrite boot_trace, app_nil_r.
  - rewrite exec_snoc. destruct IH as (rest & Htr & Hrest & Hboot).
    assert (st_status (exec sched (boot args)) = Running →
            ∃ b, (main_startup args).2 = Continue b) as Hrunning.
    { unfold boot. destruct (main_startup args) as [tr [b|code]]; simpl.
      - intros _. by exists b.
      - by rewrite exec_frozen. }
    generalize dependent (exec sched (boot args)). intros s Htr Hrunning.
    unfold step. destruct (st_status s) eqn:Hst; [|by exists rest..].
    specialize (Hrunning eq_refl).
    assert (∀ evs, Forall (λ e, ∀ pat, e ≠ EvHandleFunc pat) evs →
              ∃ rest', st_trace s ++ evs = (main_startup args).1 ++ rest' ∧
                Forall (λ e, ∀ pat, e ≠ EvHandleFunc pat) rest' ∧
                (rest' ≠ [] → ∃ b, (main_startup args).2 = Continue b)) as Hmore.
    { intros evs Hevs. exists (rest ++ evs).
      rewrite Htr, <-app_assoc, Forall_app. by repeat split. }
    assert (∃ rest', st_trace s = (main_startup args).1 ++ rest' ∧
              Forall (λ e, ∀ pat, e ≠ EvHandleFunc pat) rest' ∧
              (rest' ≠ [] → ∃ b, (main_startup args).2 = Continue b)) as Hsame
      by by exists rest.
    destruct a as [|i|i ga|sg].
    + unfold main_step. destruct (st_main s) as [[|p rest0]|p rest0| | | | | |];
        simpl; try done.
      apply Hmore. by repeat constructor.
    + unfold send_step. destruct (st_main s); try done.
      by destruct (st_pool s !! i) as [[]|].
    + unfold goroutine_step. destruct (st_pool s !! i) as [g|]; [|done].
      destruct (serve _ _ ga g) as [[[g' evs] code]|] eqn:Hserve; [|done].
      assert (st_trace (exit_with code (set_goroutine i g' (record evs s)))
              = st_trace s ++ evs) as -> by by destruct code.
      apply Hmore. by eapply serve_events.
    + unfold signal_step. by destruct (st_main s).
Qed.

(** X8: [dns.HandleFunc] is called before any listener starts: every call
    of ListenAndServe in a trace has the registration of the handler for "."
    before it and no registration after it. *)
Theorem handler_registered_before_listeners args sched tr1 net addr tr2 :
  st_trace (program args sched) = tr1 ++ EvListenAndServe net addr :: tr2 →
  EvHandleFunc "." ∈ tr1 ∧ ∀ pat, EvHandleFunc pat ∉ tr2.
Proof.
  destruct (trace_startup_first args sched) as (rest & -> & Hrest & Hboot).
  intros Heq.
  assert (EvListenAndServe net addr ∉ (main_startup args).1) as Hnot.
  { destruct (main_startup_cases args); simpl; set_solver. }
  assert (rest ≠ []) as Hne.
  { intros ->. rewrite app_nil_r in Heq. apply Hnot. rewrite Heq. set_solver. }
  assert (EvHandleFunc "." ∈ (main_startup args).1) as Hreg.
  { destruct (Hboot Hne) as [b Hb].
    destruct (main_startup_cases args); simpl in *; try done. set_solver. }
  apply app_eq_inv in Heq as [(k & Hs & Hr)|(k & Ht & Hr)].
  - destruct k as [|e k].
    + rewrite app_nil_r in Hs. simpl in Hr. subst. split; [done|].
      apply Forall_cons in Hrest as [_ Hrest]. rewrite Forall_forall in Hrest.
      intros pat Hin. by apply (Hrest _ Hin pat).
    + simpl in Hr. injection Hr as <- _. exfalso. apply Hnot. rewrite Hs. set_solver.
  - subst. split; [set_solver|].
    apply Forall_app in Hrest as [_ [_ Hrest]%Forall_cons].
    rewrite Forall_forall in Hrest. intros pat Hin. by apply (Hrest _ Hin pat).
Qed.

End listeners.

(** ** More of [main.go] in the stubbed world *)

Lemma unset_flags_keep_defaults_witness :
  listenAddressFlag (<["udp" := VBool false]> CommandLine) = ":53".
Proof.
  refine (proj1 (@unset_flags_keep_defaults stub_package [("udp", "0")]
                   (<["udp" := VBool false]> CommandLine) _) _); [reflexivity|].
  intros v Hin. apply list_elem_of_singleton in Hin. discriminate Hin.
Defined.

Lemma last_setting_wins_witness :
  (<["tcp" := VBool false]>
     (<["endpoint" := VString "https://b.example/dns-query"]>
        (<["endpoint" := VString "https://a.example/dns-query"]> CommandLine)))
    !! "endpoint" = Some (VString "https://b.example/dns-query").
Proof.
  refine (@last_setting_wins stub_package
            [("endpoint", "https://a.example/dns-query")]
            "endpoint" "https://b.example/dns-query" [("tcp", "false")] _ _ _);
    [reflexivity|].
  intros v Hin. apply list_elem_of_singleton in Hin. discriminate Hin.
Defined.


Lemma exit_status_cases_witness : ∃ sg, ActSignal sg ∈ sigint_schedule.
Proof.
  refine (proj1 (proj2 (proj2 (@exit_status_cases stub_package [] sigint_schedule 0
                                 _ _ _)) eq_refl)); [| |reflexivity].
  - intros w Hin. exact (proj1 (elem_of_nil _) Hin).
  - intros w Hin. exact (proj1 (elem_of_nil _) Hin).
Defined.

Lemma exit_one_iff_fatal_entry_witness :
  st_status (@program stub_package [] (serving_schedule ++ [tcp_failure])) = Exited 1.
Proof.
  refine (proj2 (@exit_one_iff_fatal_entry stub_package []
                   (serving_schedule ++ [tcp_failure])) _).
  exists (EvLog 110 FatalLevel
            ("Failed to setup the tcp server: accept tcp: too many open files"
             +:+ newline)).
  split; [|reflexivity].
  apply (list_elem_of_lookup_2 _ 6). reflexivity.
Defined.

Lemma listen_once_per_enabled_transport_witness :
  NoDup (listened (st_trace (@program stub_package [] serving_schedule))).
Proof.
  exact (proj1 (@listen_once_per_enabled_transport stub_package [] serving_schedule)).
Defined.

Lemma shutdown_only_after_nil_return_witness :
  ∃ i, ActServe i (ListenReturns None) ∈ tcp_return_schedule.
Proof.
  refine (@shutdown_only_after_nil_return stub_package [] tcp_return_schedule "tcp" _).
  apply (list_elem_of_lookup_2 _ 7). reflexivity.
Defined.

Lemma handler_registered_before_listeners_witness :
  EvHandleFunc "." ∈
    [EvPrintln ["log level: "; "info"]; EvHandleFunc ".";
     EvLog 105 InfoLevel "starting tcp service on :53"].
Proof.
  refine (proj1 (@handler_registered_before_listeners stub_package [] serving_schedule
                   [EvPrintln ["log level: "; "info"]; EvHandleFunc ".";
                    EvLog 105 InfoLevel "starting tcp service on :53"]
                   "tcp" ":53"
                   [EvLog 105 InfoLevel "starting udp service on :53";
                    EvListenAndServe "udp" ":53"] _)).
  reflexivity.
Defined.

Lemma signal_ends_process_witness :
  st_status (@program stub_package []
               (serving_schedule ++ [ActSignal SIGTERM; ActMain; ActMain; ActMain]))
    = Exited 0.
Proof.
  refine (proj1 (@signal_ends_process stub_package [] serving_schedule SIGTERM _ _));
    reflexivity.
Defined.
